(** * DRAGON analyzer: timestamp coincidence queue, VME module unpacking
    and the rootana event handler.

    A shallow embedding of
      - [src/utils/TStamp.cxx]   (tstamp::Queue, tstamp::Diagnostics),
      - [src/Modules.cxx]        (dragon::gamma::Modules, dragon::hion::Modules),
      - [src/rootana/Events.cxx] (rootana::EventHandler::Process, AddHisto,
        EndRun, BeginRun),
      - [src/midas/Xml.cxx]      (path_tokenize, get_xml_path and the search
        of midas::Xml::ParseBuffer),
    with the data declared in [src/Dragon.hxx] (dragon::Scaler, and its
    set_aliases).

    Conventions.  Integers of the program are [Z]; the C++ objects that a
    method mutates are passed in and returned; the virtual callbacks of the
    queue (HandleCoinc, HandleSingle, HandleDiagnostics, FlushTimeoutMessage)
    and its error stream are recorded, in call order, in an output log.  An
    option result is [None] exactly where the behaviour of the C++ program
    is undefined: an array indexed outside its bounds, a member called
    through a deleted histogram. *)

From Stdlib Require Import QArith Qcanon Ascii.
From stdpp Require Import base option list numbers strings pretty gmap sorting.

Local Open Scope Z_scope.

(** ** Events *)

(** midas::Event is declared in midas/Event.hxx; the queue reads
    its event id and its trigger time, the unpackers read its banks. *)
Record Event := mkEvent {
  GetEventId : Z;                       (* uint16_t *)
  TriggerTime : Z;                      (* timestamp, in ticks *)
  Serial : Z;
  Banks : list (string * list Z)        (* bank tag, bank words *)
}.

(** Modelled from the spec: the event ids of utils/definitions.h, which is
    not part of the sources at hand (1 = head singles, 2 = head scaler,
    3 = tail singles, 4 = tail scaler). *)
Definition DRAGON_HEAD_EVENT : Z := 1.
Definition DRAGON_HEAD_SCALER : Z := 2.
Definition DRAGON_TAIL_EVENT : Z := 3.
Definition DRAGON_TAIL_SCALER : Z := 4.

(** Modelled from the spec: midas::Event::TimeDiff, the time delta between
    this event and another one. *)
Definition TimeDiff (e other : Event) : Z := TriggerTime e - TriggerTime other.

(** Modelled from the spec: midas::Event::operator<, the comparator of the
    multiset, which midas/Event.hxx declares and the sources at hand do not
    hold.  It compares trigger times, and two events whose trigger times
    differ by at most [W] are equivalent (neither is less than the other).
    With [W = 0] this is the plain order by trigger time of the spec's
    ordering rule; with the coincidence window for [W], equal_range of the
    earliest event is the range of the spec's emission rule and of the doc
    comment of Pop, the events with trigger times within the window.  The
    source of an event is not compared: the emission rule finds the range
    by trigger times and tests the sources in a later step.

    For [W > 0] this is not a strict weak order (to lie within [W] of each
    other is not transitive), so the standard does not say where the
    container puts or finds an element in every sequence; see the multiset
    below for the sequences on which it does. *)
Definition event_lt (W : Z) (a b : Event) : bool :=
  TriggerTime a + W <? TriggerTime b.

(** The matching predicate of the spec: trigger times within [W]. *)
Definition within (W : Z) (a b : Event) : bool :=
  Z.abs (TriggerTime a - TriggerTime b) <=? W.

(** ** tstamp::Diagnostics *)

Record Diagnostics := mkDiagnostics {
  size : Z;
  n_coinc : Z;
  time_diff : Z;
  n_singles : list Z                    (* int n_singles[MAX_TYPES] *)
}.

(** ** The output of the queue *)

Inductive Call :=
| HandleCoinc (event1 event2 : Event)
| HandleSingle (e : Event)
| HandleDiagnostics (d : Diagnostics)
| FlushTimeoutMessage (max_time : Z) (skipped : nat)
| PushInsertError (queue_size : nat)
| PushInsertRethrow
| FillDiagnosticsWarning (singles_id : Z).

(** ** std::multiset<midas::Event> as an ordered sequence

    The multiset is the sequence of its elements in iteration order.  The
    bounds are those of the standard, the first position whose element is
    not less than the key and the first position whose element the key is
    less than, found here by a scan from the front.

    The container finds them by a descent of its search tree ([Tree]
    below).  Scan and descent agree on every sequence that is partitioned
    with respect to the key ([partitioned]; lemmas
    [tree_insert_scan] and [tree_equal_range_scan]), whatever the shape of
    the tree: for every key on a sequence sorted by trigger time
    ([sorted_partitioned], [tree_agrees_when_sorted]), which is every
    sequence the queue builds when [W = 0] ([run_sorted_zero]) or when the
    events are pushed in trigger-time order ([run_in_order]).  On a
    sequence that is not partitioned the answer of the container depends
    on the shape of its tree ([equal_range_depends_on_shape]), which the
    sequence does not record: there the scan is one of the possible
    answers, and the statements about such sequences are those that hold
    wherever the new element is put and whichever range is found. *)

Section Multiset.
Variable lt : Event → Event → bool.

(** Index of the first element that is not less than [k]. *)
Fixpoint lower_bound (k : Event) (l : list Event) : nat :=
  match l with
  | [] => 0%nat
  | x :: l' => if lt x k then S (lower_bound k l') else 0%nat
  end.

(** Index of the first element that [k] is less than. *)
Fixpoint upper_bound (k : Event) (l : list Event) : nat :=
  match l with
  | [] => 0%nat
  | x :: l' => if lt k x then 0%nat else S (upper_bound k l')
  end.

(** multiset::insert puts the new element at the upper bound of the
    elements equivalent to it. *)
Definition multiset_insert (e : Event) (l : list Event) : list Event :=
  take (upper_bound e l) l ++ e :: drop (upper_bound e l) l.

Definition equal_range (k : Event) (l : list Event) : nat * nat :=
  (lower_bound k l, upper_bound k l).
End Multiset.

(** *** The search tree of the container

    A binary search tree whose in-order traversal is the sequence.  The
    colours of the nodes and the rotations that rebalance the tree change
    its shape and not its traversal, so they are left out; a search returns
    a position in the traversal. *)
Inductive Tree :=
| Leaf
| Node (l : Tree) (x : Event) (r : Tree).

Fixpoint inorder (t : Tree) : list Event :=
  match t with
  | Leaf => []
  | Node l x r => inorder l ++ x :: inorder r
  end.

Section TreeSearch.
Variable lt : Event → Event → bool.

(** The descent of lower_bound: to the right below a node that is less
    than the key, else to the left with the node as the answer so far. *)
Fixpoint tree_lower_bound (k : Event) (t : Tree) : nat :=
  match t with
  | Leaf => 0%nat
  | Node l x r =>
    if lt x k then (S (length (inorder l)) + tree_lower_bound k r)%nat
    else tree_lower_bound k l
  end.

(** The descent of upper_bound: to the left, with the node as the answer
    so far, below a node the key is less than, else to the right. *)
Fixpoint tree_upper_bound (k : Event) (t : Tree) : nat :=
  match t with
  | Leaf => 0%nat
  | Node l x r =>
    if lt k x then tree_upper_bound k l
    else (S (length (inorder l)) + tree_upper_bound k r)%nat
  end.

(** The descent of equal_range: down to the first node equivalent to the
    key, then lower_bound in its left and upper_bound in its right
    subtree. *)
Fixpoint tree_equal_range (k : Event) (t : Tree) : nat * nat :=
  match t with
  | Leaf => (0%nat, 0%nat)
  | Node l x r =>
    if lt x k then
      let '(first, second) := tree_equal_range k r in
      ((S (length (inorder l)) + first)%nat,
       (S (length (inorder l)) + second)%nat)
    else if lt k x then tree_equal_range k l
    else (tree_lower_bound k l,
          (S (length (inorder l)) + tree_upper_bound k r)%nat)
  end.

(** The descent of insert: to the left below a node the new element is
    less than, else to the right, down to a leaf. *)
Fixpoint tree_insert (e : Event) (t : Tree) : Tree :=
  match t with
  | Leaf => Node Leaf e Leaf
  | Node l x r =>
    if lt e x then Node (tree_insert e l) x r else Node l x (tree_insert e r)
  end.
End TreeSearch.

(** A sequence is partitioned by a test when no element that passes it
    stands in front of one that fails it. *)
Fixpoint partitioned (P : Event → bool) (l : list Event) : Prop :=
  match l with
  | [] => True
  | x :: l' =>
    if P x then Forall (λ y, P y = true) l' else partitioned P l'
  end.

(** ** tstamp::Queue *)

Record Queue := mkQueue {
  fEvents : list Event;                 (* in multiset order *)
  fMaxDelta : Z
}.

(** The queue together with what its methods read and write besides it:
    the number of time(0) calls made so far and the output log. *)
Record World := mkWorld {
  queue : Queue;
  clock : nat;
  out : list Call
}.

Record PopResult := mkPopResult {
  pop_queue : Queue;
  pop_singles_id : Z;
  pop_found_coinc : bool;
  pop_calls : list Call
}.

(** How a call of Push ends: it returns, or it rethrows the exception of the
    second failed insertion. *)
Inductive PushOutcome :=
| Returned (d : option Diagnostics) (w : World)
| Rethrown (d : option Diagnostics) (w : World).

Definition Size (q : Queue) : nat := length (fEvents q).

Definition emit (cs : list Call) (w : World) : World :=
  mkWorld (queue w) (clock w) (out w ++ cs).

Definition set_events (l : list Event) (w : World) : World :=
  mkWorld (mkQueue l (fMaxDelta (queue w))) (clock w) (out w).

(** Modelled from the spec: tstamp::Queue::IsFull of TStamp.hxx, the span
    between the largest and the smallest buffered trigger time exceeds the
    maximum. *)
Definition time_span (l : list Event) : Z :=
  match l with
  | [] => 0
  | e :: l' =>
    foldr Z.max (TriggerTime e) (TriggerTime <$> l')
    - foldr Z.min (TriggerTime e) (TriggerTime <$> l')
  end.

Definition IsFull (q : Queue) : bool := fMaxDelta q <? time_span (fEvents q).

(** [a[i] += 1] on a C array: defined only inside the bounds. *)
Definition array_incr (a : list Z) (i : Z) : option (list Z) :=
  if bool_decide (0 ≤ i < Z.of_nat (length a))
  then x ← a !! Z.to_nat i; Some (<[Z.to_nat i := x + 1]> a)
  else None.

Section Queue.
(** Coincidence window, carried by the comparator of the events. *)
Variable W : Z.
(** tstamp::Diagnostics::MAX_TYPES, a constant of TStamp.hxx. *)
Variable MAX_TYPES : Z.
(** The wall clock: [time n] is what the (n+1)-st call of time(0) returns. *)
Variable time : nat → Z.

(** tstamp::Diagnostics::reset *)
Definition Diagnostics_reset : Diagnostics :=
  mkDiagnostics 0 0 0 (replicate (Z.to_nat MAX_TYPES) 0).

(** Body of the loop of Pop at iterator position [it]. *)
Definition match_step (l : list Event) (st : bool * list Call) (it : nat)
  : bool * list Call :=
  if decide (it = 0%nat) then st
  else match l !! 0%nat, l !! it with
       | Some e0, Some e => (true, st.2 ++ [HandleCoinc e0 e])
       | _, _ => st
       end.

(** tstamp::Queue::Pop *)
Definition Pop (q : Queue) : PopResult :=
  match fEvents q with
  | [] => mkPopResult q (-1) false []
  | e0 :: rest =>
    let '(first, second) := equal_range (event_lt W) e0 (fEvents q) in
    let '(found_coinc, calls) :=
      foldl (match_step (fEvents q)) (false, [])
            (seq first (second - first)) in
    mkPopResult (mkQueue rest (fMaxDelta q)) (GetEventId e0) found_coinc
                (calls ++ [HandleSingle e0])
  end.

(** tstamp::Queue::FillDiagnostics *)
Definition FillDiagnostics (q : Queue) (d : option Diagnostics)
           (tdiff : Z) (have_coinc : bool) (singles_id : Z)
  : option (option Diagnostics * list Call) :=
  match d with
  | None => Some (None, [])
  | Some d =>
    let n_coinc' := if have_coinc then n_coinc d + 1 else n_coinc d in
    if bool_decide (0 ≤ singles_id) && bool_decide (singles_id < MAX_TYPES)
    then
      a ← array_incr (n_singles d) singles_id;
      Some (Some (mkDiagnostics (Z.of_nat (Size q)) n_coinc' tdiff a), [])
    else
      let d' := mkDiagnostics (Z.of_nat (Size q)) n_coinc' tdiff (n_singles d) in
      if bool_decide (0 < singles_id)
      then Some (Some d', [FillDiagnosticsWarning singles_id])
      else Some (Some d', [])
  end.

(** [if (diagnostics) { FillDiagnostics(...); HandleDiagnostics(...); }] *)
Definition update_diagnostics (d : option Diagnostics) (tdiff : Z)
           (have_coinc : bool) (singles_id : Z) (w : World)
  : option (option Diagnostics * World) :=
  match d with
  | None => Some (None, w)
  | Some _ =>
    '(d', msgs) ← FillDiagnostics (queue w) d tdiff have_coinc singles_id;
    match d' with
    | Some d'' => Some (d', emit (msgs ++ [HandleDiagnostics d'']) w)
    | None => Some (d', emit msgs w)
    end
  end.

Definition pop_world (w : World) : World * Z * bool :=
  let r := Pop (queue w) in
  (mkWorld (pop_queue r) (clock w) (out w ++ pop_calls r),
   pop_singles_id r, pop_found_coinc r).

(** The while loop of Flush.  Every iteration on a non-empty buffer
    removes at least one event, so [length] of the buffer many iterations
    empty it. *)
Fixpoint Flush_loop (fuel : nat) (max_time t_begin : Z)
         (d : option Diagnostics) (w : World)
  : option (option Diagnostics * World) :=
  match fEvents (queue w), fuel with
  | [], _ => Some (d, w)
  | _ :: _, O => Some (d, w)
  | _ :: _, S fuel' =>
    if bool_decide (0 < max_time) then
      (* the right operand of && reads the clock *)
      let now := time (clock w) in
      let w := mkWorld (queue w) (S (clock w)) (out w) in
      if bool_decide (now - t_begin < max_time) then
        let '(w1, singlesId, haveCoinc) := pop_world w in
        '(d1, w2) ← update_diagnostics d 0 haveCoinc singlesId w1;
        Flush_loop fuel' max_time t_begin d1 w2
      else
        let w1 := emit [FlushTimeoutMessage max_time (Size (queue w))] w in
        Flush_loop fuel' max_time t_begin d (set_events [] w1)
    else
      let w1 := emit [FlushTimeoutMessage max_time (Size (queue w))] w in
      Flush_loop fuel' max_time t_begin d (set_events [] w1)
  end.

(** tstamp::Queue::Flush *)
Definition Flush (max_time : Z) (d : option Diagnostics) (w : World)
  : option (option Diagnostics * World) :=
  let t_begin := time (clock w) in
  let w := mkWorld (queue w) (S (clock w)) (out w) in
  Flush_loop (Size (queue w)) max_time t_begin d w.

Definition insert_world (event : Event) (w : World) : World :=
  set_events (multiset_insert (event_lt W) event (fEvents (queue w))) w.

(** The part of Push after the insertion. *)
Definition Push_tail (event : Event) (d : option Diagnostics) (w : World)
  : option PushOutcome :=
  let tdiff :=
    match fEvents (queue w) with
    | e0 :: _ => TimeDiff event e0
    | [] => 0
    end in
  let '(w1, singlesId, haveCoinc) :=
    if IsFull (queue w) then pop_world w else (w, -1, false) in
  '(d1, w2) ← update_diagnostics d tdiff haveCoinc singlesId w1;
  Some (Returned d1 w2).

(** tstamp::Queue::Push.  [throws1] and [throws2] tell whether the first
    and the second call of std::multiset::insert throw. *)
Definition Push (throws1 throws2 : bool) (event : Event)
           (d : option Diagnostics) (w : World) : option PushOutcome :=
  if throws1 then
    let w1 := emit [PushInsertError (Size (queue w))] w in
    '(d1, w2) ← Flush (-1) d w1;
    if throws2 then Some (Rethrown d1 (emit [PushInsertRethrow] w2))
    else Push_tail event d1 (insert_world event w2)
  else Push_tail event d (insert_world event w).

(** *** Sequences of calls on one queue

    The calls a driver makes, with the default arguments of the header:
    no diagnostics object, and insertions that do not throw. *)
Inductive Op :=
| OpPush (e : Event)
| OpPop
| OpFlush (max_time : Z).

Definition step (w : World) (op : Op) : option World :=
  match op with
  | OpPush e =>
    r ← Push false false e None w;
    match r with
    | Returned _ w' => Some w'
    | Rethrown _ _ => None
    end
  | OpPop => Some (pop_world w).1.1
  | OpFlush max_time => snd <$> Flush max_time None w
  end.

Fixpoint run (ops : list Op) (w : World) : option World :=
  match ops with
  | [] => Some w
  | op :: ops' => w' ← step w op; run ops' w'
  end.

(** [n] calls of Pop in a row. *)
Fixpoint pops (n : nat) (w : World) : World :=
  match n with
  | O => w
  | S n' => pops n' (pop_world w).1.1
  end.
End Queue.

Definition new_world (T : Z) : World := mkWorld (mkQueue [] T) 0 [].

(** The events handed to HandleSingle, in call order. *)
Definition singles (cs : list Call) : list Event :=
  omap (λ c, match c with HandleSingle e => Some e | _ => None end) cs.

(** The pairs handed to HandleCoinc, in call order. *)
Definition coincs (cs : list Call) : list (Event * Event) :=
  omap (λ c, match c with HandleCoinc a b => Some (a, b) | _ => None end) cs.

(** The buffer is sorted by trigger time. *)
Definition sorted_by_time (l : list Event) : Prop :=
  StronglySorted (λ a b, TriggerTime a ≤ TriggerTime b) l.

(** The events directly behind the front [e0] that [e0] is not less than:
    what equal_range of the front spans, the front itself left out. *)
Definition partners (W : Z) (e0 : Event) (rest : list Event) : list Event :=
  take (upper_bound (event_lt W) e0 rest) rest.

Definition has_match (l : list Event) : bool :=
  match l with [] => false | _ :: _ => true end.

(** Sample events: a head singles and a tail singles event triggered at
    tick [t], with an empty payload. *)
Definition head_at (t : Z) : Event := mkEvent DRAGON_HEAD_EVENT t 0 [].
Definition tail_at (t : Z) : Event := mkEvent DRAGON_TAIL_EVENT t 0 [].

(** A clock that stands still. *)
Definition frozen_clock : nat → Z := λ _, 0.

(** The events a sequence of calls pushes, in call order. *)
Definition pushed (ops : list Op) : list Event :=
  omap (λ op, match op with OpPush e => Some e | _ => None end) ops.

Definition is_flush (op : Op) : bool :=
  match op with OpFlush _ => true | _ => false end.

(** An event with another event id, and the same for the events of a
    call. *)
Definition set_id (f : Event → Z) (e : Event) : Event :=
  mkEvent (f e) (TriggerTime e) (Serial e) (Banks e).

Definition set_id_call (f : Event → Z) (c : Call) : Call :=
  match c with
  | HandleCoinc a b => HandleCoinc (set_id f a) (set_id f b)
  | HandleSingle e => HandleSingle (set_id f e)
  | c => c
  end.

(** Sample events with a serial number: two head events can carry the
    same trigger time. *)
Definition head_no (serial t : Z) : Event := mkEvent DRAGON_HEAD_EVENT t serial [].

(** ** VME modules ([src/Modules.cxx]) *)

Module vme.
(** CAEN V792 / V785 charge ADC: int16_t data[32]. *)
Record V792 := mkV792 { adc_data : list Z }.
(** CAEN V1190b TDC: int16_t data[64]. *)
Record V1190b := mkV1190b { tdc_data : list Z }.
(** IO32 FPGA: the header that carries the trigger time. *)
Record IO32 := mkIO32 { io32_tstamp : Z }.

(** Modelled from the spec: vme::reset of vme/vme.hxx, which gives every
    channel of a module the no-data value [NONE]. *)
Definition reset_adc (NONE : Z) (m : V792) : V792 :=
  mkV792 (replicate 32 NONE).
Definition reset_tdc (NONE : Z) (m : V1190b) : V1190b :=
  mkV1190b (replicate 64 NONE).
End vme.

(** dragon::gamma::Modules, the modules of the head. *)
Module gamma.
Record Modules := mkModules {
  v792 : vme.V792;
  v1190b : vme.V1190b;
  io32 : vme.IO32
}.

Section Unpack.
Variable NONE : Z.
(** vme::caen::unpack_adc and vme::caen::unpack_v1190 of vme/vme.hxx:
    decode the bank of the given name, if the event has it, into the
    module. *)
Variable unpack_adc : Event → string → vme.V792 → vme.V792.
Variable unpack_v1190 : Event → string → vme.V1190b → vme.V1190b.

Definition reset (m : Modules) : Modules :=
  mkModules (vme.reset_adc NONE (v792 m)) (vme.reset_tdc NONE (v1190b m))
            (io32 m).

Definition unpack (event : Event) (m : Modules) : Modules :=
  let a := unpack_adc event "VADC" (v792 m) in
  let a := unpack_adc event "ADC0" a in
  let t := unpack_v1190 event "VTDC" (v1190b m) in
  let t := unpack_v1190 event "TDC0" t in
  mkModules a t (io32 m).
End Unpack.

Definition v792_data (m : Modules) (ch : nat) : option Z :=
  vme.adc_data (v792 m) !! ch.
Definition v1190b_data (m : Modules) (ch : nat) : option Z :=
  vme.tdc_data (v1190b m) !! ch.
Definition tstamp (m : Modules) : Z := vme.io32_tstamp (io32 m).
End gamma.

(** dragon::hion::Modules, the modules of the tail. *)
Module hion.
Record Modules := mkModules {
  v785 : list vme.V792;               (* vme::caen::V785 v785[2] *)
  v1190b : vme.V1190b;
  io32 : vme.IO32
}.

Definition reset (NONE : Z) (m : Modules) : Modules :=
  mkModules (vme.reset_adc NONE <$> v785 m) (vme.reset_tdc NONE (v1190b m))
            (io32 m).

(** Every statement of the body is commented out in the source. *)
Definition unpack (event : Event) (m : Modules) : Modules := m.

Definition v785_data (m : Modules) (which ch : nat) : option Z :=
  a ← v785 m !! which; vme.adc_data a !! ch.
Definition v1190b_data (m : Modules) (ch : nat) : option Z :=
  vme.tdc_data (v1190b m) !! ch.
Definition tstamp (m : Modules) : Z := vme.io32_tstamp (io32 m).
End hion.

(** A tail event as the front end sends it: the two ADC banks, the TDC
    bank and the FPGA header bank, triggered at tick 1000. *)
Definition tail_event_sample : Event :=
  mkEvent DRAGON_TAIL_EVENT 1000 7
          [("TLQ0"%string, [1234; 77]); ("TLQ1"%string, [512]);
           ("TLT0"%string, [4321]); ("TLTR"%string, [1000])].

(** ** dragon::Scaler ([src/Dragon.hxx]) *)

Module Scaler.
Definition MAX_CHANNELS : nat := 17.

Record t := mk {
  count : list Z;                     (* uint32_t count[MAX_CHANNELS] *)
  sum : list Z;                       (* uint32_t sum[MAX_CHANNELS] *)
  rate : list Qc                      (* double rate[MAX_CHANNELS] *)
}.

(** Scaler::reset: all data to zero. *)
Definition reset : t :=
  mk (replicate MAX_CHANNELS 0) (replicate MAX_CHANNELS 0)
     (replicate MAX_CHANNELS 0%Qc).

(** Modelled from the spec: what a scaler event is said to do to the
    counters, for the counts and the running sums (the SCLR bank holds the
    increments of the period; uint32_t sums wrap). *)
Definition updated_by (event : Event) (old new : t) : Prop :=
  ∀ i, (i < MAX_CHANNELS)%nat →
    ∃ c s, (list_to_map (Banks event) : gmap string (list Z)) !! "SCLR"%string
           ≫= (.!! i) = Some c
      ∧ sum old !! i = Some s
      ∧ count new !! i = Some c
      ∧ sum new !! i = Some ((s + c) `mod` 2 ^ 32).
End Scaler.

(** ** rootana::EventHandler ([src/rootana/Events.cxx]) *)

(** What the template handle_event asks of its data argument. *)
Class Detector (T : Type) := {
  reset : T → T;
  unpack : Event → T → T;
  calculate : T → T
}.

Definition handle_event {T} `{Detector T} (data : T) (buf : Event) : T :=
  calculate (unpack buf (reset data)).

(** The objects of the analyzer: the globals rootana::gHead and
    rootana::gTail, the scaler records of the two front ends, the histogram
    lists of the handler keyed by event id (a histogram is known by its
    handle) and the calls of HistBase::fill made so far. *)
Record Analyzer (Head Tail : Type) := mkAnalyzer {
  gHead : Head;
  gTail : Tail;
  head_scaler : Scaler.t;
  tail_scaler : Scaler.t;
  fHistos : gmap Z (list nat);
  filled : list nat
}.
Arguments mkAnalyzer {Head Tail}.
Arguments gHead {Head Tail}.
Arguments gTail {Head Tail}.
Arguments head_scaler {Head Tail}.
Arguments tail_scaler {Head Tail}.
Arguments fHistos {Head Tail}.
Arguments filled {Head Tail}.

Section EventHandler.
Context {Head Tail : Type} `{Detector Head} `{Detector Tail}.

(** [std::for_each(fHistos[EID].begin(), fHistos[EID].end(), hFill())]:
    operator[] of std::map creates an empty list for a new key. *)
Definition fill_histos (EID : Z) (a : Analyzer Head Tail)
  : Analyzer Head Tail :=
  let hs := default [] (fHistos a !! EID) in
  mkAnalyzer (gHead a) (gTail a) (head_scaler a) (tail_scaler a)
             (<[EID := hs]> (fHistos a)) (filled a ++ hs).

(** rootana::EventHandler::Process(const midas::Event&) *)
Definition Process (event : Event) (a : Analyzer Head Tail)
  : Analyzer Head Tail :=
  let EID := GetEventId event in
  if decide (EID = DRAGON_HEAD_EVENT) then
    fill_histos EID
      (mkAnalyzer (handle_event (gHead a) event) (gTail a)
                  (head_scaler a) (tail_scaler a) (fHistos a) (filled a))
  else if decide (EID = DRAGON_TAIL_EVENT) then
    fill_histos EID
      (mkAnalyzer (gHead a) (handle_event (gTail a) event)
                  (head_scaler a) (tail_scaler a) (fHistos a) (filled a))
  else if decide (EID = DRAGON_HEAD_SCALER) then a   (* todo in the source *)
  else if decide (EID = DRAGON_TAIL_SCALER) then a   (* todo in the source *)
  else a.
End EventHandler.

(** Detector records without content, to run the handler on. *)
Definition blank_detector : Detector unit :=
  {| reset := id; unpack := λ _, id; calculate := id |}.

(** A head scaler event: 17 counts of the period, the first one 5, and a
    period of one second. *)
Definition scaler_event_sample : Event :=
  mkEvent DRAGON_HEAD_SCALER 2000 3
          [("SCLR"%string, 5 :: replicate 16 0); ("SCHD"%string, [1000000])].

Definition analyzer_sample : Analyzer unit unit :=
  mkAnalyzer () () Scaler.reset Scaler.reset {[DRAGON_HEAD_EVENT := [0%nat]]} [].

(** ** Registering and releasing histograms ([src/rootana/Events.cxx]) *)

(** What AddHisto asks of ROOT: the tokens of a path, the directory of a
    given name inside a directory (FindObject followed by the dynamic
    cast; none when there is no such directory) and TDirectory::mkdir,
    whose result is null when the directory cannot be made. *)
Class TDirectoryOps (FS Dir : Type) := {
  Tokenize : string → list string;
  FindDirectory : FS → Dir → string → option Dir;
  mkdir : FS → Dir → string → FS * option Dir
}.

(** A TDirectory* handed in as the file. *)
Record TFile (Dir : Type) := mkTFile {
  IsZombie : bool;
  file_dir : Dir
}.
Arguments mkTFile {Dir}.
Arguments IsZombie {Dir}.
Arguments file_dir {Dir}.

(** The directories of ROOT: what exists, the current directory
    gDirectory, and the directory each histogram was given by
    set_directory. *)
Record RootState (FS Dir : Type) := mkRoot {
  root_fs : FS;
  gDirectory : Dir;
  hist_dir : gmap nat Dir
}.
Arguments mkRoot {FS Dir}.
Arguments root_fs {FS Dir}.
Arguments gDirectory {FS Dir}.
Arguments hist_dir {FS Dir}.

Inductive AddResult (FS Dir : Type) :=
| invalid_argument (what : string)
| null_directory
| added (r : RootState FS Dir) (histos : gmap Z (list nat)).
Arguments invalid_argument {FS Dir}.
Arguments null_directory {FS Dir}.
Arguments added {FS Dir}.

Section AddHisto.
Context {FS Dir : Type} `{TDirectoryOps FS Dir}.

(** Body of the loop over the directory names of the path; [None] once
    [d->cd()] was called on a null pointer. *)
Definition enter_dir (st : option (RootState FS Dir)) (dirname : string)
  : option (RootState FS Dir) :=
  r ← st;
  match FindDirectory (root_fs r) (gDirectory r) dirname with
  | Some dir => Some (mkRoot (root_fs r) dir (hist_dir r))
  | None =>
    let '(fs', d) := mkdir (root_fs r) (gDirectory r) dirname in
    d ← d; Some (mkRoot fs' d (hist_dir r))
  end.

(** rootana::EventHandler::AddHisto *)
Definition AddHisto (hist : nat) (eventId : Z) (file : option (TFile Dir))
           (dirPath : string) (r : RootState FS Dir)
           (histos : gmap Z (list nat)) : AddResult FS Dir :=
  match file with
  | None => invalid_argument "'file' is NULL"
  | Some f =>
    if IsZombie f then invalid_argument "'file' is zombie"
    else
      let r := mkRoot (root_fs r) (file_dir f) (hist_dir r) in
      match foldl enter_dir (Some r) (Tokenize dirPath) with
      | None => null_directory
      | Some r =>
        added (mkRoot (root_fs r) (file_dir f)
                      (<[hist := gDirectory r]> (hist_dir r)))
              (<[eventId := default [] (histos !! eventId) ++ [hist]]> histos)
      end
  end.
End AddHisto.

(** The handler with another histogram map. *)
Definition set_histos {Head Tail : Type} (histos : gmap Z (list nat))
           (a : Analyzer Head Tail) : Analyzer Head Tail :=
  mkAnalyzer (gHead a) (gTail a) (head_scaler a) (tail_scaler a) histos
             (filled a).

(** The calls EndRun makes on histograms. *)
Inductive HistCall :=
| hist_write (h : nat)
| hist_delete (h : nat).

(** The histograms on the heap: those deleted so far, in the order of their
    deletion, and the calls made on histograms. *)
Record HistState := mkHistState {
  deleted : list nat;
  hist_calls : list HistCall
}.

(** hDestruct: [h->write(); delete h].  Both are undefined on a histogram
    that was deleted before. *)
Definition hDestruct (h : nat) (st : HistState) : option HistState :=
  if decide (h ∈ deleted st) then None
  else Some (mkHistState (deleted st ++ [h])
                         (hist_calls st ++ [hist_write h; hist_delete h])).

(** std::for_each with a body that may be undefined. *)
Definition for_each {A S : Type} (f : A → S → option S) (l : list A) (st : S)
  : option S :=
  foldl (λ acc x, acc ≫= f x) (Some st) l.

(** hListDestruct: hDestruct on every histogram of one list of the map. *)
Definition hListDestruct (p : Z * list nat) (st : HistState)
  : option HistState :=
  for_each hDestruct p.2 st.

(** A std::map is walked in the order of its keys. *)
Definition key_le (x y : Z * list nat) : Prop := x.1 ≤ y.1.

#[global] Instance key_le_dec : RelDecision key_le.
Proof. intros x y. unfold key_le. apply _. Defined.

Definition in_key_order (histos : gmap Z (list nat)) : list (Z * list nat) :=
  merge_sort key_le (map_to_list histos).

(** rootana::EventHandler::EndRun.  It reads the lists of the handler and
    changes none of them: the histograms it deletes stay listed. *)
Definition EndRun {Head Tail : Type} (a : Analyzer Head Tail) (st : HistState)
  : option HistState :=
  for_each hListDestruct (in_key_order (fHistos a)) st.

(** rootana::EventHandler::BeginRun: its one statement is commented out. *)
Definition BeginRun {Head Tail : Type} (a : Analyzer Head Tail)
  : Analyzer Head Tail := a.

(** The histograms Process calls fill() on. *)
Definition fills_of {Head Tail : Type} (event : Event) (a : Analyzer Head Tail)
  : list nat :=
  if decide (GetEventId event = DRAGON_HEAD_EVENT
             ∨ GetEventId event = DRAGON_TAIL_EVENT)
  then default [] (fHistos a !! GetEventId event) else [].

(** Process when histograms have been deleted: [h->fill()] through a
    deleted histogram is undefined. *)
Definition Process_live {Head Tail : Type} `{Detector Head} `{Detector Tail}
           (st : HistState) (event : Event) (a : Analyzer Head Tail)
  : option (Analyzer Head Tail) :=
  if decide (Forall (λ h, h ∉ deleted st) (fills_of event a))
  then Some (Process event a) else None.

(** Process on one event after the other. *)
Definition process_all {Head Tail : Type} `{Detector Head} `{Detector Tail}
           (events : list Event) (a : Analyzer Head Tail)
  : Analyzer Head Tail :=
  foldl (λ a event, Process event a) a events.

(** Every histogram of the map, in the order EndRun reaches it. *)
Definition registered (histos : gmap Z (list nat)) : list nat :=
  in_key_order histos ≫= snd.

(** Directories as paths below the file, to run AddHisto on: a path is
    cut at every slash and empty names are skipped, the directories that
    exist are listed, and mkdir always succeeds. *)
Fixpoint tokens_from (acc : string) (s : string) : list string :=
  match s with
  | EmptyString => if decide (acc = EmptyString) then [] else [acc]
  | String c s' =>
    if decide (c = "/"%char)
    then (if decide (acc = EmptyString) then [] else [acc])
           ++ tokens_from EmptyString s'
    else tokens_from (acc +:+ String c EmptyString) s'
  end.

Definition path_dirs : TDirectoryOps (list (list string)) (list string) :=
  {| Tokenize := tokens_from EmptyString;
     FindDirectory := λ fs d name,
       if decide (d ++ [name] ∈ fs) then Some (d ++ [name]) else None;
     mkdir := λ fs d name, ((d ++ [name]) :: fs, Some (d ++ [name])) |}.

(** ** Tree aliases of the scaler channels ([src/Dragon.hxx]) *)

(** The three arrays of a scaler, as set_aliases names them. *)
Definition chNames : list string := ["count"; "sum"; "rate"]%string.

(** A [const char*] read as a C string: the characters in front of the
    first NUL. *)
Fixpoint c_str (s : string) : string :=
  match s with
  | EmptyString => EmptyString
  | String c s' =>
    if decide (c = Ascii.zero) then EmptyString else String c (c_str s')
  end.

(** One call of SetAlias: the new name, then the branch expression it
    stands for.  [branchName] is a [const char*]; both arguments reach
    SetAlias through [str().c_str()], so a NUL inside variables.names[i]
    cuts the new name short. *)
Definition alias_of (names : list string) (branchName : string)
           (i : nat) (ch : string) : string * string :=
  (c_str (c_str branchName +:+ "_" +:+ ch +:+ "_"
            +:+ default EmptyString (names !! i)),
   c_str (c_str branchName +:+ "." +:+ ch +:+ "[" +:+ pretty i +:+ "]")).

(** dragon::Scaler::set_aliases: the SetAlias calls it makes on the tree,
    in order; [names] is variables.names. *)
Definition set_aliases (names : list string) (branchName : string)
  : list (string * string) :=
  i ← seq 0 Scaler.MAX_CHANNELS; ch ← chNames; [alias_of names branchName i ch].

(** ** Paths of the ODB in XML ([src/midas/Xml.cxx]) *)

(** The loop of path_tokenize: while the rest of the path has a slash, the
    part in front of the first one is a node and the part behind it the
    new rest.  The rest loses a character in every round, so its length
    bounds the rounds. *)
Fixpoint tokenize_loop (fuel : nat) (strPath : string) (nodes : list string)
  : list string :=
  match fuel with
  | O => nodes ++ [strPath]
  | S fuel' =>
    match String.index 0 "/" strPath with
    | Some posn =>
      tokenize_loop fuel'
        (String.substring (posn + 1) (String.length strPath - (posn + 1))
                          strPath)
        (nodes ++ [String.substring 0 posn strPath])
    | None => nodes ++ [strPath]
    end
  end.

(** path_tokenize *)
Definition path_tokenize (path : string) : list string :=
  tokenize_loop (String.length path) path [].

(** The loop of get_xml_path over the nodes. *)
Fixpoint xml_path_loop (nodes : list string) (node_type : string) : string :=
  match nodes with
  | [] => EmptyString
  | it :: rest =>
    match rest with
    | [] => "/" +:+ node_type +:+ "[@name=" +:+ it +:+ "]"
    | _ :: _ => "/dir[@name=" +:+ it +:+ "]" +:+ xml_path_loop rest node_type
    end
  end.

(** get_xml_path *)
Definition get_xml_path (path node_type : string) : string :=
  let pPath :=
    match path with
    | String c rest => if decide (c = "/"%char) then rest else path
    | EmptyString => path
    end in
  xml_path_loop (path_tokenize pPath) node_type.

(** Names joined by slashes, and whether a name has a slash. *)
Fixpoint join_slash (ts : list string) : string :=
  match ts with
  | [] => EmptyString
  | t :: ts' =>
    match ts' with
    | [] => t
    | _ :: _ => t +:+ String "/"%char (join_slash ts')
    end
  end.

Fixpoint has_slash (s : string) : bool :=
  match s with
  | EmptyString => false
  | String c s' => if decide (c = "/"%char) then true else has_slash s'
  end.

(** The search for the start of the ODB in midas::Xml::ParseBuffer.  The
    buffer holds [length] characters; memcmp is asked to compare four of
    them from [startPos] on, which is undefined when they are not all
    inside the buffer. *)
Inductive FindOdb :=
| odb_at (startPos : nat)
| odb_not_found
| odb_outside_buffer.

Definition odb_tag : list ascii := ["<"; "o"; "d"; "b"]%char.

Definition memcmp_odb (fBuffer : list ascii) (startPos : nat) : option bool :=
  if decide (startPos + length odb_tag ≤ length fBuffer)%nat
  then Some (bool_decide (take (length odb_tag) (drop startPos fBuffer)
                          = odb_tag))
  else None.

(** [rounds] is what is left of [length + lodb - startPos]. *)
Fixpoint find_odb_loop (rounds startPos : nat) (fBuffer : list ascii)
  : FindOdb :=
  match rounds with
  | O => odb_not_found
  | S rounds' =>
    match memcmp_odb fBuffer startPos with
    | None => odb_outside_buffer
    | Some true => odb_at startPos
    | Some false => find_odb_loop rounds' (S startPos) fBuffer
    end
  end.

Definition ParseBuffer_find_odb (fBuffer : list ascii) : FindOdb :=
  find_odb_loop (length fBuffer + length odb_tag) 0 fBuffer.

(** * Properties of the queue *)

Section QueueFacts.
Variable W : Z.

Lemma event_lt_irrefl e : 0 ≤ W → event_lt W e e = false.
Proof. intros HW. unfold event_lt. apply Z.ltb_ge. lia. Qed.

Lemma lower_bound_begin e0 rest :
  0 ≤ W → lower_bound (event_lt W) e0 (e0 :: rest) = 0%nat.
Proof. intros HW. simpl. by rewrite event_lt_irrefl. Qed.

Lemma upper_bound_begin e0 rest :
  0 ≤ W →
  upper_bound (event_lt W) e0 (e0 :: rest)
  = S (upper_bound (event_lt W) e0 rest).
Proof. intros HW. simpl. by rewrite event_lt_irrefl. Qed.

Lemma upper_bound_le_length lt k l : (upper_bound lt k l ≤ length l)%nat.
Proof. induction l as [|x l IH]; simpl; [lia|]. destruct (lt k x); lia. Qed.

(** The loop of Pop over the iterator positions [k+1 .. k+n] reports the
    events at these positions, each paired with the front. *)
Lemma foldl_match_step e0 rest n : ∀ k b cs,
  (k + n ≤ length rest)%nat →
  foldl (match_step (e0 :: rest)) (b, cs) (seq (S k) n)
  = (b || has_match (take n (drop k rest)),
     cs ++ (HandleCoinc e0 <$> take n (drop k rest))).
Proof.
  induction n as [|n IH]; intros k b cs Hk; simpl.
  - by rewrite orb_false_r, app_nil_r.
  - destruct (lookup_lt_is_Some_2 rest k) as [x Hx]; [lia|].
    rewrite (drop_S _ _ _ Hx). simpl.
    unfold match_step at 2. simpl. rewrite Hx.
    rewrite IH by lia. simpl.
    rewrite orb_true_r. by rewrite <- app_assoc.
Qed.

(** What one Pop does on a non-empty buffer. *)
Lemma Pop_cons T e0 rest :
  0 ≤ W →
  Pop W (mkQueue (e0 :: rest) T)
  = mkPopResult (mkQueue rest T) (GetEventId e0)
                (has_match (partners W e0 rest))
                ((HandleCoinc e0 <$> partners W e0 rest) ++ [HandleSingle e0]).
Proof.
  intros HW. unfold Pop, equal_range. cbn [fEvents fMaxDelta].
  rewrite lower_bound_begin, upper_bound_begin by done.
  rewrite Nat.sub_0_r. cbn [seq foldl].
  unfold match_step at 2. cbn [decide]. rewrite decide_True by done.
  pose proof (upper_bound_le_length (event_lt W) e0 rest) as Hle.
  rewrite (foldl_match_step e0 rest _ 0 false []) by (simpl; lia).
  by rewrite drop_0.
Qed.

Lemma Pop_nil T : Pop W (mkQueue [] T) = mkPopResult (mkQueue [] T) (-1) false [].
Proof. reflexivity. Qed.

(** In a buffer sorted by trigger time, the range of the front holds
    every buffered event within the window of the front. *)
Lemma partners_filter_aux e0 rest :
  0 ≤ W →
  Forall (λ x, TriggerTime e0 ≤ TriggerTime x) rest →
  sorted_by_time rest →
  partners W e0 rest = List.filter (within W e0) rest.
Proof.
  intros HW. unfold partners, sorted_by_time.
  induction rest as [|x r IH]; intros Hge Hs; [done|].
  inversion Hge as [|? ? Hx Hr]; subst.
  inversion Hs as [|? ? Hsr Hxr]; subst.
  cbn [upper_bound List.filter]. unfold event_lt at 1, within at 1.
  destruct (Z.ltb_spec (TriggerTime e0 + W) (TriggerTime x)) as [Hlt|Hle].
  - rewrite (proj2 (Z.leb_gt _ _)) by lia. simpl.
    clear IH Hs Hge Hsr. induction Hxr as [|y r Hy Hyr IHr]; [done|].
    inversion Hr; subst. cbn [List.filter]. unfold within at 1.
    rewrite (proj2 (Z.leb_gt _ _)) by lia. by apply IHr.
  - rewrite (proj2 (Z.leb_le _ _)) by lia. simpl. f_equal. by apply IH.
Qed.

Lemma partners_filter e0 rest :
  0 ≤ W → sorted_by_time (e0 :: rest) →
  partners W e0 rest = List.filter (within W e0) rest.
Proof.
  intros HW Hs. inversion Hs; subst. by apply partners_filter_aux.
Qed.

(** *** Insertion *)

Lemma multiset_insert_cons lt e x l :
  multiset_insert lt e (x :: l)
  = if lt e x then e :: x :: l else x :: multiset_insert lt e l.
Proof. unfold multiset_insert. simpl. by destruct (lt e x). Qed.

Lemma multiset_insert_perm lt e l : multiset_insert lt e l ≡ₚ e :: l.
Proof.
  unfold multiset_insert. rewrite <- Permutation_middle.
  by rewrite take_drop.
Qed.

(** An event that is not earlier by more than the window than any
    buffered event goes to the back of the buffer. *)
Lemma multiset_insert_back e l :
  Forall (λ x, TriggerTime x ≤ TriggerTime e + W) l →
  multiset_insert (event_lt W) e l = l ++ [e].
Proof.
  induction 1 as [|x l Hx Hl IH]; [done|].
  rewrite multiset_insert_cons. unfold event_lt at 1.
  rewrite (proj2 (Z.ltb_ge _ _)) by lia. by rewrite IH.
Qed.

(** *** The range of Pop *)


(** The comparator reads the trigger times only: the range of the front
    is the same when the events carry other ids. *)
Lemma partners_set_id f e0 rest :
  partners W (set_id f e0) (set_id f <$> rest)
  = set_id f <$> partners W e0 rest.
Proof.
  unfold partners. rewrite fmap_take. f_equal.
  induction rest as [|x rest IH]; [done|].
  cbn [fmap list_fmap upper_bound]. by rewrite IH.
Qed.

Lemma has_match_fmap (f : Event → Event) l :
  has_match (f <$> l) = has_match l.
Proof. by destruct l. Qed.
End QueueFacts.

(** ** The scan and the search tree

    On a partitioned sequence the descents of the search tree give the
    positions that the scans give, whatever the shape of the tree. *)

Section TreeFacts.
Variable lt : Event → Event → bool.

Lemma partitioned_app_true P l1 x l2 :
  partitioned P (l1 ++ x :: l2) → P x = true →
  partitioned P l1 ∧ Forall (λ y, P y = true) l2.
Proof.
  induction l1 as [|y l1 IH]; simpl; intros Hp Hx.
  - by rewrite Hx in Hp.
  - destruct (P y) eqn:Hy; [|by apply IH].
    apply Forall_app in Hp as [H1 H2].
    by apply Forall_cons in H2 as [_ H2].
Qed.

Lemma partitioned_app_false P l1 x l2 :
  partitioned P (l1 ++ x :: l2) → P x = false →
  Forall (λ y, P y = false) l1 ∧ partitioned P l2.
Proof.
  induction l1 as [|y l1 IH]; simpl; intros Hp Hx.
  - rewrite Hx in Hp. by split.
  - destruct (P y) eqn:Hy.
    + apply Forall_app in Hp as [_ H2].
      apply Forall_cons in H2 as [H2 _]. congruence.
    + destruct (IH Hp Hx). split; [by constructor|done].
Qed.

Lemma all_false_partitioned P l :
  Forall (λ y, P y = false) l → partitioned P l.
Proof. induction 1 as [|x l Hx Hl IH]; simpl; [done|]. by rewrite Hx. Qed.

Lemma upper_bound_app_true k l1 x l2 :
  lt k x = true →
  upper_bound lt k (l1 ++ x :: l2) = upper_bound lt k l1.
Proof.
  intros Hx. induction l1 as [|y l1 IH]; simpl; [by rewrite Hx|].
  destruct (lt k y); [done|]. by rewrite IH.
Qed.

Lemma upper_bound_app_false k l1 x l2 :
  Forall (λ y, lt k y = false) l1 → lt k x = false →
  upper_bound lt k (l1 ++ x :: l2)
  = S (length l1 + upper_bound lt k l2).
Proof.
  intros Hl Hx. induction Hl as [|y l1 Hy Hl IH]; simpl; [by rewrite Hx|].
  by rewrite Hy, IH.
Qed.

Lemma lower_bound_app_stop k l1 x l2 :
  lt x k = false →
  lower_bound lt k (l1 ++ x :: l2) = lower_bound lt k l1.
Proof.
  intros Hx. induction l1 as [|y l1 IH]; simpl; [by rewrite Hx|].
  destruct (lt y k); [|done]. by rewrite IH.
Qed.

Lemma lower_bound_app_go k l1 x l2 :
  Forall (λ y, negb (lt y k) = false) l1 → lt x k = true →
  lower_bound lt k (l1 ++ x :: l2)
  = S (length l1 + lower_bound lt k l2).
Proof.
  intros Hl Hx. induction Hl as [|y l1 Hy Hl IH]; simpl; [by rewrite Hx|].
  apply negb_false_iff in Hy. by rewrite Hy, IH.
Qed.

Lemma tree_upper_bound_scan k t :
  partitioned (lt k) (inorder t) →
  tree_upper_bound lt k t = upper_bound lt k (inorder t).
Proof.
  induction t as [|l IHl x r IHr]; simpl; intros Hp; [done|].
  destruct (lt k x) eqn:Hx.
  - destruct (partitioned_app_true _ _ _ _ Hp Hx) as [Hl _].
    rewrite IHl by done. by rewrite upper_bound_app_true.
  - destruct (partitioned_app_false _ _ _ _ Hp Hx) as [Hl Hr].
    rewrite IHr by done. by rewrite upper_bound_app_false.
Qed.

Lemma tree_lower_bound_scan k t :
  partitioned (λ y, negb (lt y k)) (inorder t) →
  tree_lower_bound lt k t = lower_bound lt k (inorder t).
Proof.
  induction t as [|l IHl x r IHr]; simpl; intros Hp; [done|].
  destruct (lt x k) eqn:Hx.
  - destruct (partitioned_app_false (λ y, negb (lt y k)) _ _ _ Hp)
      as [Hl Hr]; [by rewrite Hx|].
    rewrite IHr by done. by rewrite lower_bound_app_go.
  - destruct (partitioned_app_true (λ y, negb (lt y k)) _ _ _ Hp)
      as [Hl _]; [by rewrite Hx|].
    rewrite IHl by done. by rewrite lower_bound_app_stop.
Qed.

(** multiset::insert by a descent of the tree puts the new element where
    the scan puts it. *)
Lemma tree_insert_scan e t :
  partitioned (lt e) (inorder t) →
  inorder (tree_insert lt e t) = multiset_insert lt e (inorder t).
Proof.
  induction t as [|l IHl x r IHr]; simpl; intros Hp; [done|].
  unfold multiset_insert. destruct (lt e x) eqn:Hx; simpl.
  - destruct (partitioned_app_true _ _ _ _ Hp Hx) as [Hl _].
    rewrite IHl by done. unfold multiset_insert.
    rewrite upper_bound_app_true by done.
    pose proof (upper_bound_le_length lt e (inorder l)).
    rewrite take_app_le, drop_app_le by done.
    by rewrite <- !app_assoc.
  - destruct (partitioned_app_false _ _ _ _ Hp Hx) as [Hl Hr].
    rewrite IHr by done. unfold multiset_insert.
    rewrite upper_bound_app_false by done.
    replace (S (length (inorder l) + upper_bound lt e (inorder r)))
      with (length (inorder l ++ [x]) + upper_bound lt e (inorder r))%nat
      by (rewrite length_app; simpl; lia).
    rewrite (cons_middle x (inorder l) (inorder r)), app_assoc.
    rewrite take_app_add, drop_app_add.
    by rewrite <- !app_assoc.
Qed.

(** equal_range by a descent of the tree spans what the scans span. *)
Lemma tree_equal_range_scan k t :
  (∀ a b, lt a b = true → lt b a = false) →
  partitioned (lt k) (inorder t) →
  partitioned (λ y, negb (lt y k)) (inorder t) →
  tree_equal_range lt k t = equal_range lt k (inorder t).
Proof.
  intros Hasym. unfold equal_range.
  induction t as [|l IHl x r IHr]; simpl; intros Hu Hl; [done|].
  destruct (lt x k) eqn:Hxk.
  - destruct (partitioned_app_false (λ y, negb (lt y k)) _ _ _ Hl)
      as [Hl1 Hl2]; [by rewrite Hxk|].
    assert (Hkx : lt k x = false) by by apply Hasym.
    destruct (partitioned_app_false _ _ _ _ Hu Hkx) as [Hu1 Hu2].
    rewrite IHr by done.
    by rewrite lower_bound_app_go, upper_bound_app_false.
  - destruct (partitioned_app_true (λ y, negb (lt y k)) _ _ _ Hl)
      as [Hl1 _]; [by rewrite Hxk|].
    rewrite lower_bound_app_stop by done.
    destruct (lt k x) eqn:Hkx.
    + destruct (partitioned_app_true _ _ _ _ Hu Hkx) as [Hu1 _].
      rewrite IHl by done. by rewrite upper_bound_app_true.
    + destruct (partitioned_app_false _ _ _ _ Hu Hkx) as [Hu1 Hu2].
      rewrite tree_lower_bound_scan, tree_upper_bound_scan by done.
      by rewrite upper_bound_app_false.
Qed.
End TreeFacts.

(** On a sequence that is not partitioned the range found depends on the
    shape of the tree: two trees over the events at ticks 100, 111, 105, in
    this order, and the ranges of the first event in them, with a window
    of 10 ticks. *)
Lemma equal_range_depends_on_shape :
  inorder (Node (Node Leaf (head_at 100) Leaf) (head_at 111)
                (Node Leaf (tail_at 105) Leaf))
  = inorder (Node (Node Leaf (head_at 100) (Node Leaf (head_at 111) Leaf))
                  (tail_at 105) Leaf)
  ∧ tree_equal_range (event_lt 10) (head_at 100)
      (Node (Node Leaf (head_at 100) Leaf) (head_at 111)
            (Node Leaf (tail_at 105) Leaf)) = (0%nat, 1%nat)
  ∧ tree_equal_range (event_lt 10) (head_at 100)
      (Node (Node Leaf (head_at 100) (Node Leaf (head_at 111) Leaf))
            (tail_at 105) Leaf) = (0%nat, 3%nat).
Proof. by split_and!. Qed.

(** A sequence sorted by trigger time is partitioned with respect to
    every key. *)
Lemma sorted_partitioned W k l :
  sorted_by_time l →
  partitioned (event_lt W k) l
  ∧ partitioned (λ y, negb (event_lt W y k)) l.
Proof.
  unfold sorted_by_time. induction 1 as [|x l Hl [IH1 IH2] Hx]; [done|].
  split; simpl.
  - destruct (event_lt W k x) eqn:Hk; [|done].
    eapply Forall_impl; [exact Hx|]. intros y Hy. simpl in Hy.
    unfold event_lt in *. apply Z.ltb_lt in Hk. apply Z.ltb_lt. lia.
  - destruct (event_lt W x k) eqn:Hk; [done|]. simpl.
    eapply Forall_impl; [exact Hx|]. intros y Hy. simpl in Hy.
    unfold event_lt in *. apply Z.ltb_ge in Hk.
    apply negb_true_iff, Z.ltb_ge. lia.
Qed.

(** With [W = 0] the comparator is a strict weak order, and every sequence
    the queue builds is sorted by trigger time: insertion keeps it so. *)
Lemma multiset_insert_sorted e l :
  sorted_by_time l → sorted_by_time (multiset_insert (event_lt 0) e l).
Proof.
  unfold sorted_by_time. induction 1 as [|x l Hl IH Hx].
  - unfold multiset_insert. simpl. repeat constructor.
  - rewrite multiset_insert_cons. destruct (event_lt 0 e x) eqn:Hex.
    + unfold event_lt in Hex. apply Z.ltb_lt in Hex.
      constructor; [by constructor|]. constructor; [lia|].
      eapply Forall_impl; [exact Hx|]. intros y Hy. simpl in Hy. lia.
    + unfold event_lt in Hex. apply Z.ltb_ge in Hex.
      constructor; [done|].
      rewrite multiset_insert_perm. constructor; [lia|done].
Qed.

(** The container agrees with the sequence on a buffer sorted by trigger
    time: equal_range of any key, hence of the front in Pop, and the place
    of any new event. *)
Lemma tree_agrees_when_sorted W k t :
  0 ≤ W → sorted_by_time (inorder t) →
  tree_equal_range (event_lt W) k t = equal_range (event_lt W) k (inorder t)
  ∧ inorder (tree_insert (event_lt W) k t)
    = multiset_insert (event_lt W) k (inorder t).
Proof.
  intros HW Hs. destruct (sorted_partitioned W k _ Hs) as [Hu Hl]. split.
  - apply tree_equal_range_scan; [|done..].
    intros a b. unfold event_lt. rewrite Z.ltb_lt, Z.ltb_ge. lia.
  - by apply tree_insert_scan.
Qed.

(** ** Calls without a diagnostics object *)

Lemma singles_app cs1 cs2 : singles (cs1 ++ cs2) = singles cs1 ++ singles cs2.
Proof. apply omap_app. Qed.

Lemma singles_coinc e0 l : singles (HandleCoinc e0 <$> l) = [].
Proof. by induction l. Qed.



Section WorldFacts.
Variable W : Z.
Variable MAX_TYPES : Z.
Variable time : nat → Z.

Lemma pop_world_cons w e0 rest :
  0 ≤ W → fEvents (queue w) = e0 :: rest →
  pop_world W w
  = (mkWorld (mkQueue rest (fMaxDelta (queue w))) (clock w)
             (out w ++ (HandleCoinc e0 <$> partners W e0 rest)
                    ++ [HandleSingle e0]),
     GetEventId e0, has_match (partners W e0 rest)).
Proof.
  intros HW Hq. destruct w as [[l T] c o]. simpl in *. subst l.
  unfold pop_world. cbn [queue]. by rewrite Pop_cons.
Qed.

Lemma pop_world_nil w :
  fEvents (queue w) = [] → pop_world W w = (w, -1, false).
Proof.
  intros Hq. destruct w as [[l T] c o]. simpl in *. subst l.
  unfold pop_world. simpl. by rewrite app_nil_r.
Qed.

(** [n] Pops in a row hand the first [n] buffered events to HandleSingle,
    in buffer order. *)
Lemma pops_spec n : ∀ w,
  0 ≤ W →
  singles (out (pops W n w)) = singles (out w) ++ take n (fEvents (queue w))
  ∧ fEvents (queue (pops W n w)) = drop n (fEvents (queue w)).
Proof.
  induction n as [|n IH]; intros w HW; cbn [pops].
  - by rewrite take_0, drop_0, app_nil_r.
  - destruct (fEvents (queue w)) as [|e0 rest] eqn:Hq.
    + rewrite (pop_world_nil _ Hq). cbn [fst].
      destruct (IH w HW) as [-> ->]. rewrite Hq.
      by rewrite take_nil, drop_nil.
    + rewrite (pop_world_cons _ _ _ HW Hq). cbn [fst].
      destruct (IH (mkWorld (mkQueue rest (fMaxDelta (queue w))) (clock w)
               (out w ++ (HandleCoinc e0 <$> partners W e0 rest)
                      ++ [HandleSingle e0])) HW) as [-> ->].
      simpl. rewrite !singles_app, singles_coinc. simpl.
      by rewrite <- app_assoc.
Qed.

(** The loop of Flush ends with an empty buffer once it is given as many
    iterations as there are buffered events; what it hands to HandleSingle
    is a prefix of the buffer. *)
Lemma Flush_loop_None fuel : ∀ max_time t_begin w,
  0 ≤ W →
  (length (fEvents (queue w)) ≤ fuel)%nat →
  ∃ w', Flush_loop W MAX_TYPES time fuel max_time t_begin None w
        = Some (None, w')
    ∧ fEvents (queue w') = []
    ∧ fMaxDelta (queue w') = fMaxDelta (queue w)
    ∧ ∃ k, singles (out w')
           = singles (out w) ++ take k (fEvents (queue w)).
Proof.
  induction fuel as [|fuel IH]; intros max_time t_begin w HW Hlen.
  - destruct (fEvents (queue w)) as [|e0 rest] eqn:Hq; [|simpl in Hlen; lia].
    exists w. simpl. rewrite Hq. split_and!; try done.
    exists 0%nat. by rewrite app_nil_r.
  - destruct (fEvents (queue w)) as [|e0 rest] eqn:Hq.
    + exists w. simpl. rewrite Hq. split_and!; try done.
      exists 0%nat. by rewrite app_nil_r.
    + cbn [Flush_loop]. rewrite Hq.
      assert (Hclear : ∀ w0 : World,
        fEvents (queue w0) = e0 :: rest → out w0 = out w →
        fMaxDelta (queue w0) = fMaxDelta (queue w) →
        ∃ w', Flush_loop W MAX_TYPES time fuel max_time t_begin None
                (set_events []
                   (emit [FlushTimeoutMessage max_time (Size (queue w0))] w0))
              = Some (None, w')
          ∧ fEvents (queue w') = []
          ∧ fMaxDelta (queue w') = fMaxDelta (queue w)
          ∧ ∃ k, singles (out w') = singles (out w) ++ take k (e0 :: rest)).
      { intros w0 Hq0 Ho0 HT0.
        destruct (IH max_time t_begin
          (set_events []
             (emit [FlushTimeoutMessage max_time (Size (queue w0))] w0)) HW)
          as (w' & Hw' & He & HT & k & Hk); [simpl; lia|].
        exists w'. split_and!; [done|done|by rewrite HT|].
        exists 0%nat. rewrite Hk. simpl. rewrite Ho0, singles_app. simpl.
        by rewrite take_nil, !app_nil_r. }
      case_bool_decide as Hmt; [|by apply Hclear].
      case_bool_decide as Hnow; [|by apply Hclear].
      rewrite (pop_world_cons _ e0 rest HW) by done.
      cbn [update_diagnostics mbind option_bind queue clock out].
      destruct (IH max_time t_begin
        (mkWorld (mkQueue rest (fMaxDelta (queue w))) (S (clock w))
                 (out w ++ (HandleCoinc e0 <$> partners W e0 rest)
                        ++ [HandleSingle e0])) HW)
        as (w' & Hw' & He & HT & k & Hk); [simpl in *; lia|].
      exists w'. split_and!; [done|done|done|].
      exists (S k). rewrite Hk. simpl.
      rewrite !singles_app, singles_coinc. simpl.
      by rewrite <- app_assoc.
Qed.

Lemma Flush_None max_time w :
  0 ≤ W →
  ∃ w', Flush W MAX_TYPES time max_time None w = Some (None, w')
    ∧ fEvents (queue w') = []
    ∧ fMaxDelta (queue w') = fMaxDelta (queue w)
    ∧ ∃ k, singles (out w')
           = singles (out w) ++ take k (fEvents (queue w)).
Proof.
  intros HW. unfold Flush.
  destruct (Flush_loop_None (Size (queue w)) max_time (time (clock w))
    (mkWorld (queue w) (S (clock w)) (out w)) HW) as (w' & H); [done|].
  by exists w'.
Qed.

(** Push with its default arguments: insert, then one Pop if the buffer
    is full. *)
Lemma Push_None e w :
  Push W MAX_TYPES time false false e None w
  = Some (Returned None
      (if IsFull (queue (insert_world W e w))
       then (pop_world W (insert_world W e w)).1.1
       else insert_world W e w)).
Proof.
  unfold Push, Push_tail.
  destruct (IsFull (queue (insert_world W e w))); [|done].
  by destruct (pop_world W (insert_world W e w)) as [[w1 s] h].
Qed.


Lemma pop_world_tail w :
  0 ≤ W → fEvents (queue (pop_world W w).1.1) = tail (fEvents (queue w)).
Proof.
  intros HW. destruct (pops_spec 1 w HW) as [_ Hb]. cbn [pops] in Hb.
  rewrite Hb. by destruct (fEvents (queue w)).
Qed.


End WorldFacts.

(** ** Flush and its deadline *)

Section FlushFacts.
Variable W : Z.
Variable MAX_TYPES : Z.
Variable time : nat → Z.

Lemma Flush_loop_empty fuel max_time t_begin d w :
  fEvents (queue w) = [] →
  Flush_loop W MAX_TYPES time fuel max_time t_begin d w = Some (d, w).
Proof. intros Hq. destruct fuel; simpl; by rewrite Hq. Qed.

Lemma Pop_removes_front q : fEvents (pop_queue (Pop W q)) = tail (fEvents q).
Proof.
  unfold Pop. destruct (fEvents q) as [|e0 rest] eqn:Hq; [done|].
  destruct (equal_range (event_lt W) e0 (e0 :: rest)) as [first second].
  by destruct (foldl _ _ _).
Qed.

(** A diagnostics object whose counter array has MAX_TYPES elements. *)
Lemma FillDiagnostics_defined q d tdiff have_coinc singles_id :
  length (n_singles d) = Z.to_nat MAX_TYPES →
  ∃ d' msgs,
    FillDiagnostics MAX_TYPES q (Some d) tdiff have_coinc singles_id
    = Some (Some d', msgs)
    ∧ length (n_singles d') = Z.to_nat MAX_TYPES.
Proof.
  intros Hlen. unfold FillDiagnostics.
  destruct (bool_decide (0 ≤ singles_id)) eqn:H0;
    destruct (bool_decide (singles_id < MAX_TYPES)) eqn:H1; cbn [andb];
    try (destruct (bool_decide (0 < singles_id)); by eexists _, _).
  apply bool_decide_eq_true in H0, H1.
  unfold array_incr. rewrite bool_decide_eq_true_2 by lia.
  destruct (lookup_lt_is_Some_2 (n_singles d) (Z.to_nat singles_id))
    as [x Hx]; [lia|].
  rewrite Hx. cbn [mbind option_bind]. eexists _, _. split; [done|].
  cbn [n_singles]. by rewrite length_insert.
Qed.

(** Flush always returns, and it returns with an empty buffer: the loop
    needs no more iterations than there are buffered events. *)
Lemma Flush_loop_terminates fuel : ∀ max_time t_begin d w,
  from_option (λ d, length (n_singles d) = Z.to_nat MAX_TYPES) True d →
  (length (fEvents (queue w)) ≤ fuel)%nat →
  ∃ d' w', Flush_loop W MAX_TYPES time fuel max_time t_begin d w
           = Some (d', w')
    ∧ fEvents (queue w') = [].
Proof.
  induction fuel as [|fuel IH]; intros max_time t_begin d w Hd Hlen.
  - destruct (fEvents (queue w)) as [|e0 rest] eqn:Hq; [|simpl in Hlen; lia].
    exists d, w. simpl. by rewrite Hq.
  - destruct (fEvents (queue w)) as [|e0 rest] eqn:Hq.
    + exists d, w. simpl. by rewrite Hq.
    + cbn [Flush_loop]. rewrite Hq.
      assert (Hclear : ∀ w0 : World,
        ∃ d' w', Flush_loop W MAX_TYPES time fuel max_time t_begin d
                   (set_events [] w0) = Some (d', w')
          ∧ fEvents (queue w') = []).
      { intros w0. apply IH; [done|simpl; lia]. }
      case_bool_decide as Hmt; [|by apply Hclear].
      case_bool_decide as Hnow; [|by apply Hclear].
      unfold pop_world. cbn [queue clock out].
      set (r := Pop W (queue w)).
      assert (Hr : fEvents (pop_queue r) = rest).
      { unfold r. by rewrite Pop_removes_front, Hq. }
      unfold update_diagnostics. destruct d as [d|]; cbn [queue].
      * destruct (FillDiagnostics_defined (pop_queue r) d 0
                    (pop_found_coinc r) (pop_singles_id r) Hd)
          as (d' & msgs & -> & Hd').
        cbn [mbind option_bind queue]. apply IH; [done|].
        simpl in *. rewrite Hr. lia.
      * cbn [mbind option_bind]. apply IH; [done|].
        simpl in *. rewrite Hr. lia.
Qed.

Lemma Flush_terminates max_time d w :
  from_option (λ d, length (n_singles d) = Z.to_nat MAX_TYPES) True d →
  ∃ d' w', Flush W MAX_TYPES time max_time d w = Some (d', w')
    ∧ fEvents (queue w') = [].
Proof. intros Hd. unfold Flush. by apply Flush_loop_terminates. Qed.

(** A deadline that is not positive: the first iteration of the loop
    takes the timeout branch, whatever the clock says. *)
Lemma Flush_nonpositive_discards max_time d w :
  max_time ≤ 0 → fEvents (queue w) ≠ [] →
  Flush W MAX_TYPES time max_time d w
  = Some (d, mkWorld (mkQueue [] (fMaxDelta (queue w))) (S (clock w))
               (out w ++ [FlushTimeoutMessage max_time (Size (queue w))])).
Proof.
  intros Hmt Hq. unfold Flush. cbn [queue].
  destruct (fEvents (queue w)) as [|e0 rest] eqn:Hq'; [done|].
  unfold Size at 1. rewrite Hq'. cbn [length Flush_loop queue].
  rewrite Hq'. rewrite bool_decide_eq_false_2 by lia.
  by rewrite Flush_loop_empty.
Qed.

(** A positive deadline that the clock never reaches: every buffered
    event is popped and handed to HandleSingle, and no timeout is
    reported. *)
Lemma Flush_loop_within_deadline fuel : ∀ max_time t_begin w,
  0 ≤ W → 0 < max_time →
  (∀ n, time n - t_begin < max_time) →
  (length (fEvents (queue w)) ≤ fuel)%nat →
  ∃ w', Flush_loop W MAX_TYPES time fuel max_time t_begin None w
        = Some (None, w')
    ∧ fEvents (queue w') = []
    ∧ singles (out w') = singles (out w) ++ fEvents (queue w)
    ∧ (∀ m n, FlushTimeoutMessage m n ∈ out w' →
              FlushTimeoutMessage m n ∈ out w).
Proof.
  induction fuel as [|fuel IH]; intros max_time t_begin w HW Hmt Hclk Hlen.
  - destruct (fEvents (queue w)) as [|e0 rest] eqn:Hq; [|simpl in Hlen; lia].
    exists w. simpl. rewrite Hq, app_nil_r. by split_and!.
  - destruct (fEvents (queue w)) as [|e0 rest] eqn:Hq.
    + exists w. simpl. rewrite Hq, app_nil_r. by split_and!.
    + cbn [Flush_loop]. rewrite Hq.
      rewrite bool_decide_eq_true_2 by done.
      rewrite bool_decide_eq_true_2 by apply Hclk.
      rewrite (pop_world_cons _ _ e0 rest HW) by done.
      cbn [update_diagnostics mbind option_bind queue clock out].
      destruct (IH max_time t_begin
        (mkWorld (mkQueue rest (fMaxDelta (queue w))) (S (clock w))
                 (out w ++ (HandleCoinc e0 <$> partners W e0 rest)
                        ++ [HandleSingle e0])) HW Hmt Hclk)
        as (w' & Hw' & He & Hs & Hno); [simpl in *; lia|].
      exists w'. split_and!; [done|done| |].
      * rewrite Hs. simpl. rewrite !singles_app, singles_coinc. simpl.
        by rewrite <- app_assoc.
      * intros m n Hin. apply Hno in Hin. simpl in Hin.
        rewrite !elem_of_app in Hin. destruct Hin as [?|[Hin|Hin]]; [done| |].
        -- apply list_elem_of_fmap in Hin as (? & ? & ?). done.
        -- apply list_elem_of_singleton in Hin. done.
Qed.
End FlushFacts.

(** ** Events that arrive in trigger-time order *)

Lemma pushed_cons op ops :
  pushed (op :: ops)
  = match op with OpPush e => [e] | _ => [] end ++ pushed ops.
Proof. by destruct op. Qed.


Section InOrder.
Variable W : Z.
Variable MAX_TYPES : Z.
Variable time : nat → Z.

Lemma run_in_order ops : ∀ w,
  0 ≤ W →
  sorted_by_time (fEvents (queue w)) →
  Forall (λ x, Forall (λ e, TriggerTime x ≤ TriggerTime e) (pushed ops))
         (fEvents (queue w)) →
  StronglySorted Z.le (TriggerTime <$> pushed ops) →
  ∃ w', run W MAX_TYPES time ops w = Some w'
    ∧ sorted_by_time (fEvents (queue w')).
Proof.
  assert (Htail : ∀ (P : Event → Prop) l,
            sorted_by_time l → Forall P l →
            sorted_by_time (tail l) ∧ Forall P (tail l)).
  { intros P [|x l] Hs HP; [done|]. simpl.
    apply StronglySorted_cons in Hs as [_ Hs].
    apply Forall_cons in HP as [_ HP]. done. }
  induction ops as [|op ops IH]; intros w HW Hs Hle Hord; cbn [run].
  - by exists w.
  - rewrite pushed_cons in Hle, Hord.
    destruct op as [e| |max_time]; cbn [step].
    + rewrite Push_None. cbn [mbind option_bind].
      cbn [app] in Hle, Hord. rewrite fmap_cons in Hord.
      apply StronglySorted_cons in Hord as [He Hord].
      assert (Hback : fEvents (queue (insert_world W e w))
                      = fEvents (queue w) ++ [e]).
      { simpl. apply multiset_insert_back.
        eapply Forall_impl; [exact Hle|]. intros x Hx. simpl in Hx.
        apply Forall_cons in Hx as [Hx _]. lia. }
      assert (Hs' : sorted_by_time (fEvents (queue (insert_world W e w)))).
      { rewrite Hback. apply StronglySorted_app_2; [|done|repeat constructor].
        intros x y Hx Hy. apply list_elem_of_singleton in Hy as ->.
        apply (proj1 (Forall_forall _ _) Hle) in Hx.
        by apply Forall_cons in Hx as [Hx _]. }
      assert (Hle' : Forall (λ x, Forall (λ e, TriggerTime x ≤ TriggerTime e)
                                         (pushed ops))
                            (fEvents (queue (insert_world W e w)))).
      { rewrite Hback. apply Forall_app. split.
        - eapply Forall_impl; [exact Hle|]. intros x Hx. simpl in Hx.
          by apply Forall_cons in Hx as [_ Hx].
        - constructor; [|constructor]. rewrite Forall_fmap in He.
          eapply Forall_impl; [exact He|]. by intros x Hx. }
      destruct (IsFull _).
      * apply IH; [done| | |done]; rewrite pop_world_tail by done;
          by apply (Htail _ _ Hs' Hle').
      * by apply IH.
    + apply IH; [done| | |done]; rewrite pop_world_tail by done;
        by apply (Htail _ _ Hs Hle).
    + destruct (Flush_None W MAX_TYPES time max_time w HW)
        as (w' & -> & He & _).
      cbn [fmap option_fmap option_map mbind option_bind snd].
      apply IH; [done| | |done]; rewrite He; constructor.
Qed.

End InOrder.

(** With a window of 0 ticks every sequence of calls keeps the buffer
    sorted by trigger time, so the sequence is what the container holds
    throughout. *)
Lemma run_sorted_zero MAX_TYPES time ops : ∀ w,
  sorted_by_time (fEvents (queue w)) →
  ∃ w', run 0 MAX_TYPES time ops w = Some w'
    ∧ sorted_by_time (fEvents (queue w')).
Proof.
  assert (Htail : ∀ w, sorted_by_time (fEvents (queue w)) →
            sorted_by_time (fEvents (queue (pop_world 0 w).1.1))).
  { intros w Hs. rewrite pop_world_tail by done.
    destruct (fEvents (queue w)); [done|].
    by apply StronglySorted_cons in Hs as [_ Hs]. }
  induction ops as [|op ops IH]; intros w Hs; cbn [run]; [by exists w|].
  destruct op as [e| |max_time]; cbn [step].
  - rewrite Push_None. cbn [mbind option_bind].
    assert (Hi : sorted_by_time (fEvents (queue (insert_world 0 e w))))
      by by apply multiset_insert_sorted.
    destruct (IsFull _); apply IH; [by apply Htail|done].
  - cbn [mbind option_bind]. by apply IH, Htail.
  - destruct (Flush_None 0 MAX_TYPES time max_time w) as (w' & -> & He & _);
      [done|].
    cbn [fmap option_fmap option_map mbind option_bind snd].
    apply IH. rewrite He. constructor.
Qed.

(** * The emission rule of Pop *)

(** C8: calling Pop on an empty queue sets singles_id to -1 and found_coinc
    to false, calls neither HandleSingle nor HandleCoinc, and leaves the
    queue as it is. *)
Theorem Pop_empty_is_noop W q :
  fEvents q = [] → Pop W q = mkPopResult q (-1) false [].
Proof. intros Hq. unfold Pop. by rewrite Hq. Qed.

Lemma Pop_empty_is_noop_witness :
  fEvents (mkQueue [] 1000) = []
  ∧ Pop 10 (mkQueue [] 1000) = mkPopResult (mkQueue [] 1000) (-1) false [].
Proof.
  split; [reflexivity|].
  apply (Pop_empty_is_noop 10 (mkQueue [] 1000)). reflexivity.
Defined.

(** C3, as the code has it: Pop makes no source test.  For every queue
    state, giving the buffered events other event ids changes the calls of
    Pop in nothing but the ids of the events it passes on; and when the
    events were pushed in trigger-time order, Pop hands to HandleCoinc the
    front event together with every other buffered event within the window
    of it, and nothing else, so two head events (or two tail events) within
    the window are reported as a coincidence. *)
Theorem Pop_makes_no_source_test W MAX_TYPES time T :
  0 ≤ W →
  (∀ q f,
     pop_calls (Pop W (mkQueue (set_id f <$> fEvents q) (fMaxDelta q)))
     = set_id_call f <$> pop_calls (Pop W q))
  ∧ (∀ ops,
       StronglySorted Z.le (TriggerTime <$> pushed ops) →
       ∃ w, run W MAX_TYPES time ops (new_world T) = Some w
         ∧ ∀ e0 rest a b,
             fEvents (queue w) = e0 :: rest →
             HandleCoinc a b ∈ pop_calls (Pop W (queue w))
             ↔ a = e0 ∧ b ∈ rest ∧ within W e0 b = true).
Proof.
  intros HW. split.
  - intros [l Tq] f. cbn [fEvents fMaxDelta].
    destruct l as [|e0 rest]; [done|].
    rewrite fmap_cons, !Pop_cons by done. cbn [pop_calls].
    rewrite partners_set_id, fmap_app, <- !list_fmap_compose. done.
  - intros ops Hord.
    destruct (run_in_order W MAX_TYPES time ops (new_world T) HW)
      as (w & Hrun & Hs); [constructor|constructor|done|].
    exists w. split; [done|]. intros e0 rest a b Hq.
    destruct w as [[l Tq] c o]. cbn [queue fEvents] in Hq, Hs. subst l.
    cbn [queue]. rewrite Pop_cons by done. cbn [pop_calls].
    rewrite (partners_filter W e0 rest HW Hs).
    rewrite elem_of_app, list_elem_of_fmap, list_elem_of_singleton.
    split.
    + intros [(y & [= -> ->] & Hy)|?]; [|done].
      apply list_elem_of_In, filter_In in Hy as [Hy Hw].
      by apply list_elem_of_In in Hy.
    + intros (-> & Hb & Hw). left. exists b. split; [done|].
      apply list_elem_of_In, filter_In. split; [|done].
      by apply list_elem_of_In.
Qed.

Lemma Pop_makes_no_source_test_witness :
  0 ≤ 10
  ∧ pop_calls (Pop 10 (mkQueue (set_id (λ _, DRAGON_HEAD_EVENT)
                                  <$> [head_at 100; tail_at 102]) 1000))
    = set_id_call (λ _, DRAGON_HEAD_EVENT)
        <$> pop_calls (Pop 10 (mkQueue [head_at 100; tail_at 102] 1000)).
Proof.
  split; [lia|].
  apply (proj1 (Pop_makes_no_source_test 10 4 frozen_clock 1000 ltac:(lia))
           (mkQueue [head_at 100; tail_at 102] 1000)
           (λ _, DRAGON_HEAD_EVENT)).
Defined.

(** C3, as stated, fails.  Three head events and one tail event within a
    window of 10 ticks are pushed in trigger-time order and the queue is
    flushed before its deadline: the coincidences reported include pairs
    of two head events.  With a window of 0 ticks, two head events of the
    same trigger time are reported as a coincidence by the Pop that
    follows them. *)
Lemma same_source_coincidence :
  (∃ w, run 10 4 frozen_clock
            [OpPush (head_at 100); OpPush (head_at 102); OpPush (head_at 103);
             OpPush (tail_at 105); OpFlush 5] (new_world 1000) = Some w
     ∧ coincs (out w)
       = [(head_at 100, head_at 102); (head_at 100, head_at 103);
          (head_at 100, tail_at 105); (head_at 102, head_at 103);
          (head_at 102, tail_at 105); (head_at 103, tail_at 105)]
     ∧ HandleCoinc (head_at 100) (head_at 102) ∈ out w)
  ∧ (∃ w, run 0 4 frozen_clock
            [OpPush (head_no 1 100); OpPush (head_no 2 100); OpPop]
            (new_world 1000) = Some w
     ∧ out w = [HandleCoinc (head_no 1 100) (head_no 2 100);
                HandleSingle (head_no 1 100)])
  ∧ GetEventId (head_at 100) = DRAGON_HEAD_EVENT
  ∧ GetEventId (head_at 102) = DRAGON_HEAD_EVENT
  ∧ GetEventId (head_no 1 100) = DRAGON_HEAD_EVENT
  ∧ GetEventId (head_no 2 100) = DRAGON_HEAD_EVENT.
Proof.
  split_and!; try reflexivity.
  - eexists. split; [vm_compute; reflexivity|].
    split; [vm_compute; reflexivity|]. apply list_elem_of_here.
  - eexists. split; [vm_compute; reflexivity|]. reflexivity.
Qed.




(** * The order of the singles *)




(** * Flush and Push against their documentation *)

(** C1: Flush with the default deadline -1 on a queue that buffers one
    head event reports a timeout and clears the buffer; the event is never
    handed to HandleSingle. *)
Theorem Flush_default_discards :
  Flush 10 4 frozen_clock (-1) None
        (mkWorld (mkQueue [head_at 1000] 1000000) 0 [])
  = Some (None, mkWorld (mkQueue [] 1000000) 1 [FlushTimeoutMessage (-1) 1])
  ∧ singles [FlushTimeoutMessage (-1) 1] = [].
Proof. split; reflexivity. Qed.

(** C2: with a maximal span of 1000 ticks, events at ticks 0, 1 and 5000
    are pushed; the third Push pops once and returns with the events at 1
    and 5000 buffered, a span of 4999 ticks: the queue is still full. *)
Theorem Push_returns_full :
  ∃ w, run 10 4 frozen_clock
           [OpPush (head_at 0); OpPush (head_at 1); OpPush (head_at 5000)]
           (new_world 1000) = Some w
    ∧ fEvents (queue w) = [head_at 1; head_at 5000]
    ∧ time_span (fEvents (queue w)) = 4999
    ∧ IsFull (queue w) = true.
Proof. eexists. split; [vm_compute; reflexivity|]. by split_and!. Qed.

(** * Diagnostics *)

(** C9: FillDiagnostics never indexes n_singles outside its bounds.  The
    counter n_singles[id] is incremented when 0 <= id < MAX_TYPES; for any
    other id the array is left as it is, and a warning is issued exactly
    for the ids from MAX_TYPES on. *)
Theorem FillDiagnostics_in_bounds MAX_TYPES q d tdiff have_coinc singles_id :
  0 < MAX_TYPES →
  length (n_singles d) = Z.to_nat MAX_TYPES →
  ∃ d' msgs,
    FillDiagnostics MAX_TYPES q (Some d) tdiff have_coinc singles_id
    = Some (Some d', msgs)
    ∧ n_singles d'
      = (if bool_decide (0 ≤ singles_id < MAX_TYPES)
         then <[Z.to_nat singles_id :=
                  (n_singles d !!! Z.to_nat singles_id) + 1]> (n_singles d)
         else n_singles d)
    ∧ msgs = (if bool_decide (MAX_TYPES ≤ singles_id)
              then [FillDiagnosticsWarning singles_id] else []).
Proof.
  intros HM Hlen. unfold FillDiagnostics.
  destruct (decide (0 ≤ singles_id < MAX_TYPES)) as [Hin|Hout].
  - rewrite (bool_decide_eq_true_2 (0 ≤ singles_id < MAX_TYPES)) by done.
    rewrite (bool_decide_eq_true_2 (0 ≤ singles_id)) by lia.
    rewrite (bool_decide_eq_true_2 (singles_id < MAX_TYPES)) by lia.
    rewrite (bool_decide_eq_false_2 (MAX_TYPES ≤ singles_id)) by lia.
    cbn [andb]. unfold array_incr. rewrite bool_decide_eq_true_2 by lia.
    destruct (lookup_lt_is_Some_2 (n_singles d) (Z.to_nat singles_id))
      as [x Hx]; [lia|].
    rewrite Hx. cbn [mbind option_bind].
    eexists _, _. split; [done|]. cbn [n_singles].
    by rewrite (list_lookup_total_correct _ _ _ Hx).
  - rewrite (bool_decide_eq_false_2 (0 ≤ singles_id < MAX_TYPES)) by done.
    destruct (decide (0 ≤ singles_id)) as [Hnn|Hneg].
    + rewrite (bool_decide_eq_true_2 (0 ≤ singles_id)) by done.
      rewrite (bool_decide_eq_false_2 (singles_id < MAX_TYPES)) by lia.
      cbn [andb]. rewrite bool_decide_eq_true_2 by lia.
      eexists _, _. split; [done|]. cbn [n_singles].
      by rewrite bool_decide_eq_true_2 by lia.
    + rewrite (bool_decide_eq_false_2 (0 ≤ singles_id)) by done.
      cbn [andb]. rewrite bool_decide_eq_false_2 by lia.
      eexists _, _. split; [done|]. cbn [n_singles].
      by rewrite bool_decide_eq_false_2 by lia.
Qed.

Lemma FillDiagnostics_in_bounds_witness :
  0 < 4 ∧ length (n_singles (Diagnostics_reset 4)) = Z.to_nat 4
  ∧ ∃ d' msgs,
      FillDiagnostics 4 (mkQueue [head_at 7] 1000)
                      (Some (Diagnostics_reset 4)) 0 true 9
      = Some (Some d', msgs)
      ∧ n_singles d' = [0; 0; 0; 0]
      ∧ msgs = [FillDiagnosticsWarning 9].
Proof.
  split; [lia|]. split; [reflexivity|].
  apply (FillDiagnostics_in_bounds 4 (mkQueue [head_at 7] 1000)
           (Diagnostics_reset 4) 0 true 9); [lia|reflexivity].
Defined.

(** * Unpacking the tail modules *)

Lemma hion_unpack_id event m : hion.unpack event m = m.
Proof. reflexivity. Qed.

(** The head modules, for comparison: unpack hands the ADC and the TDC
    record to the bank decoders, and like the tail it leaves the IO32
    record alone. *)
Lemma gamma_unpack_decodes unpack_adc unpack_v1190 event m :
  gamma.v792 (gamma.unpack unpack_adc unpack_v1190 event m)
  = unpack_adc event "ADC0"%string
      (unpack_adc event "VADC"%string (gamma.v792 m))
  ∧ gamma.v1190b (gamma.unpack unpack_adc unpack_v1190 event m)
    = unpack_v1190 event "TDC0"%string
        (unpack_v1190 event "VTDC"%string (gamma.v1190b m))
  ∧ gamma.tstamp (gamma.unpack unpack_adc unpack_v1190 event m)
    = gamma.tstamp m.
Proof. done. Qed.

(** C6: unpacking a tail event that carries ADC, TDC and FPGA header banks
    into freshly reset tail modules leaves every module as the reset left
    it: the ADC and TDC channels hold the no-data value and the time stamp
    of the IO32 record is not the trigger time of the event. *)
Theorem hion_unpack_keeps_reset_values :
  let m := hion.reset (-1)
             (hion.mkModules [vme.mkV792 []; vme.mkV792 []]
                             (vme.mkV1190b []) (vme.mkIO32 0)) in
  hion.unpack tail_event_sample m = m
  ∧ hion.v785_data (hion.unpack tail_event_sample m) 0 0 = Some (-1)
  ∧ hion.v785_data (hion.unpack tail_event_sample m) 1 0 = Some (-1)
  ∧ hion.v1190b_data (hion.unpack tail_event_sample m) 0 = Some (-1)
  ∧ hion.tstamp (hion.unpack tail_event_sample m) = 0
  ∧ TriggerTime tail_event_sample = 1000.
Proof. by split_and!. Qed.

(** * The event handler *)

(** C10: for an event whose id is neither the head singles nor the tail
    singles id, Process returns with every object of the analyzer as it
    was: no detector record is reset or unpacked and no histogram is
    filled.  This covers the unrecognised ids and the two scaler ids. *)
Theorem Process_ignores_other_ids {Head Tail : Type}
        `{Detector Head} `{Detector Tail}
        (event : Event) (a : Analyzer Head Tail) :
  GetEventId event ≠ DRAGON_HEAD_EVENT →
  GetEventId event ≠ DRAGON_TAIL_EVENT →
  Process event a = a.
Proof.
  intros Hh Ht. unfold Process.
  rewrite decide_False by done. rewrite decide_False by done.
  by repeat case_decide.
Qed.

Lemma Process_ignores_other_ids_witness :
  GetEventId (mkEvent 9 50 0 []) ≠ DRAGON_HEAD_EVENT
  ∧ GetEventId (mkEvent 9 50 0 []) ≠ DRAGON_TAIL_EVENT
  ∧ @Process unit unit blank_detector blank_detector
             (mkEvent 9 50 0 []) analyzer_sample = analyzer_sample.
Proof.
  split; [discriminate|]. split; [discriminate|].
  apply (@Process_ignores_other_ids unit unit blank_detector blank_detector
           (mkEvent 9 50 0 []) analyzer_sample); discriminate.
Defined.

(** C7, as the code has it: for a head scaler or tail scaler event Process
    takes an empty branch; count, sum and rate of both scaler records, and
    everything else, are as they were before the call. *)
Theorem Process_scaler_event {Head Tail : Type}
        `{Detector Head} `{Detector Tail}
        (event : Event) (a : Analyzer Head Tail) :
  GetEventId event = DRAGON_HEAD_SCALER
  ∨ GetEventId event = DRAGON_TAIL_SCALER →
  Process event a = a
  ∧ head_scaler (Process event a) = head_scaler a
  ∧ tail_scaler (Process event a) = tail_scaler a.
Proof.
  intros Hid.
  assert (Process event a = a) as ->; [|done].
  unfold Process. destruct Hid as [-> | ->]; reflexivity.
Qed.

Lemma Process_scaler_event_witness :
  (GetEventId scaler_event_sample = DRAGON_HEAD_SCALER
   ∨ GetEventId scaler_event_sample = DRAGON_TAIL_SCALER)
  ∧ @Process unit unit blank_detector blank_detector
             scaler_event_sample analyzer_sample = analyzer_sample.
Proof.
  split; [left; reflexivity|].
  apply (@Process_scaler_event unit unit blank_detector blank_detector
           scaler_event_sample analyzer_sample).
  left; reflexivity.
Defined.

(** C7, as stated, fails: a head scaler event whose first counter
    advanced by 5 is processed on an analyzer with the scalers at zero;
    afterwards count[0] of the head scaler is still 0. *)
Lemma scaler_event_not_counted :
  ¬ Scaler.updated_by scaler_event_sample
      (head_scaler analyzer_sample)
      (head_scaler (@Process unit unit blank_detector blank_detector
                             scaler_event_sample analyzer_sample)).
Proof.
  intros Hup. destruct (Hup 0%nat) as (c & s & Hc & _ & Hcount & _).
  - unfold Scaler.MAX_CHANNELS. lia.
  - vm_compute in Hc. vm_compute in Hcount. congruence.
Qed.


(** * Further properties of the queue *)

Section Conservation.
Variable W : Z.
Variable MAX_TYPES : Z.
Variable time : nat → Z.

(** What one call does to the events the queue holds or has handed to
    HandleSingle. *)
Lemma step_account w op :
  0 ≤ W →
  ∃ w', step W MAX_TYPES time w op = Some w'
    ∧ match op with
      | OpPush e =>
        singles (out w') ++ fEvents (queue w')
        ≡ₚ singles (out w) ++ fEvents (queue w) ++ [e]
      | OpPop =>
        singles (out w') ++ fEvents (queue w')
        = singles (out w) ++ fEvents (queue w)
      | OpFlush _ =>
        singles (out w') ++ fEvents (queue w')
        ⊆+ singles (out w) ++ fEvents (queue w)
      end.
Proof.
  intros HW.
  assert (Hpop : ∀ w0 : World,
    singles (out (pop_world W w0).1.1) ++ fEvents (queue (pop_world W w0).1.1)
    = singles (out w0) ++ fEvents (queue w0)).
  { intros w0. destruct (pops_spec W 1 w0 HW) as [Hs Hb].
    cbn [pops] in Hs, Hb. rewrite Hs, Hb, <- app_assoc.
    by rewrite take_drop. }
  destruct op as [e| |max_time]; cbn [step].
  - rewrite Push_None. cbn [mbind option_bind]. eexists; split; [done|].
    assert (Hins : singles (out (insert_world W e w))
                     ++ fEvents (queue (insert_world W e w))
                   ≡ₚ singles (out w) ++ fEvents (queue w) ++ [e]).
    { simpl. rewrite multiset_insert_perm.
      by rewrite (Permutation_cons_append (fEvents (queue w)) e). }
    destruct (IsFull _); [by rewrite Hpop|done].
  - eexists; split; [done|]. apply Hpop.
  - destruct (Flush_None W MAX_TYPES time max_time w HW)
      as (w' & -> & He & _ & k & Hk).
    exists w'. split; [done|]. rewrite He, Hk, app_nil_r.
    apply submseteq_skips_l, submseteq_take.
Qed.

Lemma run_account ops : ∀ w,
  0 ≤ W →
  ∃ w', run W MAX_TYPES time ops w = Some w'
    ∧ singles (out w') ++ fEvents (queue w')
      ⊆+ singles (out w) ++ fEvents (queue w) ++ pushed ops
    ∧ (forallb (λ op, negb (is_flush op)) ops = true →
       singles (out w') ++ fEvents (queue w')
       ≡ₚ singles (out w) ++ fEvents (queue w) ++ pushed ops).
Proof.
  induction ops as [|op ops IH]; intros w HW; cbn [run].
  - exists w. unfold pushed. simpl. by rewrite !app_nil_r.
  - destruct (step_account w op HW) as (w1 & -> & H1).
    cbn [mbind option_bind].
    destruct (IH w1 HW) as (w' & -> & Hsub & Hperm).
    exists w'. split; [done|]. rewrite pushed_cons.
    destruct op as [e| |max_time].
    + split.
      * rewrite Hsub, !app_assoc. apply submseteq_app; [|done].
        rewrite <- !app_assoc. by rewrite H1.
      * intros Hnf. cbn [forallb is_flush negb andb] in Hnf.
        rewrite (Hperm Hnf), !app_assoc. apply Permutation_app; [|done].
        rewrite <- !app_assoc. by rewrite H1.
    + cbn [app]. split.
      * by rewrite Hsub, !app_assoc, H1.
      * intros Hnf. cbn [forallb is_flush negb andb] in Hnf.
        by rewrite (Hperm Hnf), !app_assoc, H1.
    + cbn [app]. split; [|intros Hnf; discriminate Hnf].
      rewrite Hsub, !app_assoc. by apply submseteq_app.
Qed.
End Conservation.

(** X2: over any sequence of Push, Pop and Flush calls on a new queue no
    event is invented or handled twice: the events handed to HandleSingle
    together with those still buffered are among the pushed events, each
    as often as it was pushed.  Without a Flush none is lost either: they
    are the pushed events, up to order. *)
Theorem pushed_events_accounted W MAX_TYPES time T ops :
  0 ≤ W →
  ∃ w, run W MAX_TYPES time ops (new_world T) = Some w
    ∧ singles (out w) ++ fEvents (queue w) ⊆+ pushed ops
    ∧ (forallb (λ op, negb (is_flush op)) ops = true →
       singles (out w) ++ fEvents (queue w) ≡ₚ pushed ops).
Proof.
  intros HW.
  destruct (run_account W MAX_TYPES time ops (new_world T) HW)
    as (w & Hrun & Hsub & Hperm).
  exists w. by split_and!.
Qed.

Lemma pushed_events_accounted_witness :
  0 ≤ 10
  ∧ ∃ w, run 10 4 frozen_clock
             [OpPush (head_at 100); OpPush (tail_at 108); OpPop]
             (new_world 1000) = Some w
      ∧ singles (out w) ++ fEvents (queue w)
        ⊆+ pushed [OpPush (head_at 100); OpPush (tail_at 108); OpPop].
Proof.
  split; [lia|].
  destruct (pushed_events_accounted 10 4 frozen_clock 1000
              [OpPush (head_at 100); OpPush (tail_at 108); OpPop])
    as (w & Hrun & Hsub & _); [lia|].
  exists w. split; [exact Hrun|exact Hsub].
Defined.

(** X3: Flush returns with an empty buffer whatever the deadline, the
    clock and the buffered events are, given a diagnostics object (if any)
    whose counter array has MAX_TYPES elements. *)
Theorem Flush_always_empties W MAX_TYPES time max_time d w :
  from_option (λ d, length (n_singles d) = Z.to_nat MAX_TYPES) True d →
  ∃ d' w', Flush W MAX_TYPES time max_time d w = Some (d', w')
    ∧ fEvents (queue w') = [].
Proof. intros Hd. unfold Flush. by apply Flush_loop_terminates. Qed.

Lemma Flush_always_empties_witness :
  from_option (λ d, length (n_singles d) = Z.to_nat 4) True
              (Some (Diagnostics_reset 4))
  ∧ ∃ d' w',
      Flush 10 4 frozen_clock 5 (Some (Diagnostics_reset 4))
            (mkWorld (mkQueue [head_at 100; tail_at 105] 1000) 0 [])
      = Some (d', w')
      ∧ fEvents (queue w') = [].
Proof.
  split; [reflexivity|].
  apply (Flush_always_empties 10 4 frozen_clock 5 (Some (Diagnostics_reset 4))
           (mkWorld (mkQueue [head_at 100; tail_at 105] 1000) 0 [])).
  reflexivity.
Defined.

(** X4: with a positive deadline that the clock does not reach, Flush
    hands every buffered event to HandleSingle, in buffer order, and
    reports no timeout. *)
Theorem Flush_before_deadline W MAX_TYPES time max_time w :
  0 ≤ W → 0 < max_time →
  (∀ n, time n - time (clock w) < max_time) →
  ∃ w', Flush W MAX_TYPES time max_time None w = Some (None, w')
    ∧ fEvents (queue w') = []
    ∧ singles (out w') = singles (out w) ++ fEvents (queue w)
    ∧ (∀ m n, FlushTimeoutMessage m n ∈ out w' →
              FlushTimeoutMessage m n ∈ out w).
Proof.
  intros HW Hmt Hclk. unfold Flush.
  by apply (Flush_loop_within_deadline W MAX_TYPES time (Size (queue w))
              max_time (time (clock w))
              (mkWorld (queue w) (S (clock w)) (out w))).
Qed.

Lemma Flush_before_deadline_witness :
  0 ≤ 10 ∧ 0 < 5
  ∧ (∀ n, frozen_clock n - frozen_clock 0 < 5)
  ∧ ∃ w', Flush 10 4 frozen_clock 5 None
                (mkWorld (mkQueue [head_at 100; tail_at 105] 1000) 0 [])
          = Some (None, w')
      ∧ fEvents (queue w') = []
      ∧ singles (out w') = [] ++ [head_at 100; tail_at 105].
Proof.
  assert (Hclk : ∀ n, frozen_clock n - frozen_clock 0 < 5).
  { intros n. unfold frozen_clock. lia. }
  split; [lia|]. split; [lia|]. split; [exact Hclk|].
  destruct (Flush_before_deadline 10 4 frozen_clock 5
              (mkWorld (mkQueue [head_at 100; tail_at 105] 1000) 0 []))
    as (w' & HF & He & Hs & _); [lia|lia|exact Hclk|].
  exists w'. split; [exact HF|]. split; [exact He|exact Hs].
Defined.

Section FlushAccount.
Variable W : Z.
Variable MAX_TYPES : Z.
Variable time : nat → Z.

Lemma Flush_loop_account fuel : ∀ max_time t_begin w,
  0 ≤ W →
  (length (fEvents (queue w)) ≤ fuel)%nat →
  ∃ w' cs k,
    Flush_loop W MAX_TYPES time fuel max_time t_begin None w = Some (None, w')
    ∧ out w' = out w ++ cs
    ∧ singles cs = take k (fEvents (queue w))
    ∧ ((k = length (fEvents (queue w))
        ∧ ∀ m n, FlushTimeoutMessage m n ∉ cs)
       ∨ ((k < length (fEvents (queue w)))%nat
          ∧ ∃ cs', cs = cs' ++ [FlushTimeoutMessage max_time
                                  (length (fEvents (queue w)) - k)]
                   ∧ ∀ m n, FlushTimeoutMessage m n ∉ cs')).
Proof.
  induction fuel as [|fuel IH]; intros max_time t_begin w HW Hlen.
  - destruct (fEvents (queue w)) as [|e0 rest] eqn:Hq; [|simpl in Hlen; lia].
    exists w, [], 0%nat. simpl. rewrite Hq, app_nil_r.
    split_and!; [done..|]. left. split; [done|]. intros m n Hin.
    by apply elem_of_nil in Hin.
  - destruct (fEvents (queue w)) as [|e0 rest] eqn:Hq.
    + exists w, [], 0%nat. simpl. rewrite Hq, app_nil_r.
      split_and!; [done..|]. left. split; [done|]. intros m n Hin.
      by apply elem_of_nil in Hin.
    + cbn [Flush_loop]. rewrite Hq.
      assert (Hclear : ∀ c : nat,
        ∃ w' cs k,
          Flush_loop W MAX_TYPES time fuel max_time t_begin None
            (set_events []
               (emit [FlushTimeoutMessage max_time
                        (Size (queue (mkWorld (queue w) c (out w))))]
                     (mkWorld (queue w) c (out w))))
          = Some (None, w')
          ∧ out w' = out w ++ cs
          ∧ singles cs = take k (e0 :: rest)
          ∧ ((k = length (e0 :: rest)
              ∧ ∀ m n, FlushTimeoutMessage m n ∉ cs)
             ∨ ((k < length (e0 :: rest))%nat
                ∧ ∃ cs', cs = cs' ++ [FlushTimeoutMessage max_time
                                        (length (e0 :: rest) - k)]
                         ∧ ∀ m n, FlushTimeoutMessage m n ∉ cs'))).
      { intros c. rewrite Flush_loop_empty by done.
        eexists _, [FlushTimeoutMessage max_time (S (length rest))], 0%nat.
        split_and!.
        - done.
        - unfold Size. cbn [out set_events emit queue]. by rewrite Hq.
        - done.
        - right. split; [simpl; lia|]. exists []. split; [done|].
          intros m n Hin. by apply elem_of_nil in Hin. }
      case_bool_decide as Hmt; [|by apply Hclear].
      case_bool_decide as Hnow; [|by apply Hclear].
      rewrite (pop_world_cons _ _ e0 rest HW) by done.
      cbn [update_diagnostics mbind option_bind queue clock out].
      destruct (IH max_time t_begin
        (mkWorld (mkQueue rest (fMaxDelta (queue w))) (S (clock w))
                 (out w ++ (HandleCoinc e0 <$> partners W e0 rest)
                        ++ [HandleSingle e0])) HW)
        as (w' & cs & k & Hw' & Ho & Hs & Hk); [simpl in *; lia|].
      cbn [queue fEvents out] in Ho, Hs, Hk.
      assert (Hnone : ∀ m n,
        FlushTimeoutMessage m n
          ∉ (HandleCoinc e0 <$> partners W e0 rest) ++ [HandleSingle e0]).
      { intros m n Hin. apply elem_of_app in Hin as [Hin|Hin].
        - apply list_elem_of_fmap in Hin as (? & ? & ?). done.
        - apply list_elem_of_singleton in Hin. done. }
      exists w', (((HandleCoinc e0 <$> partners W e0 rest)
                   ++ [HandleSingle e0]) ++ cs), (S k).
      split_and!; [done|by rewrite Ho, <- !app_assoc| |].
      * rewrite !singles_app, singles_coinc, Hs. done.
      * destruct Hk as [[-> Hno]|(Hlt & cs' & -> & Hno)].
        -- left. split; [done|]. intros m n Hin.
           apply elem_of_app in Hin as [Hin|Hin];
             [by eapply Hnone|by eapply Hno].
        -- right. split; [simpl; lia|].
           exists (((HandleCoinc e0 <$> partners W e0 rest)
                    ++ [HandleSingle e0]) ++ cs').
           split; [by rewrite <- !app_assoc|].
           intros m n Hin. apply elem_of_app in Hin as [Hin|Hin];
             [by eapply Hnone|by eapply Hno].
Qed.

(** Flush with the deadline -1 of Push: no event is handled, the buffer
    is emptied. *)
Lemma Flush_minus_one d w :
  ∃ w', Flush W MAX_TYPES time (-1) d w = Some (d, w')
    ∧ fEvents (queue w') = []
    ∧ fMaxDelta (queue w') = fMaxDelta (queue w)
    ∧ singles (out w') = singles (out w)
    ∧ ∀ c, c ∈ out w → c ∈ out w'.
Proof.
  destruct (fEvents (queue w)) as [|e0 rest] eqn:Hq.
  - unfold Flush. rewrite Flush_loop_empty by done.
    eexists. split; [done|]. by split_and!.
  - rewrite Flush_nonpositive_discards by (lia || by rewrite Hq).
    eexists. split; [done|]. cbn [queue fEvents fMaxDelta out].
    split_and!; [done..| |].
    + rewrite singles_app. simpl. by rewrite app_nil_r.
    + intros c Hc. apply elem_of_app. by left.
Qed.
End FlushAccount.

(** X5: Flush accounts for every buffered event.  It hands a prefix of
    the buffer to HandleSingle; if that is not the whole buffer, its last
    call is the one timeout message of the flush, which reports the number
    of events left, and otherwise it reports no timeout. *)
Theorem Flush_accounts_for_buffer W MAX_TYPES time max_time w :
  0 ≤ W →
  ∃ w' cs k,
    Flush W MAX_TYPES time max_time None w = Some (None, w')
    ∧ out w' = out w ++ cs
    ∧ singles cs = take k (fEvents (queue w))
    ∧ ((k = length (fEvents (queue w))
        ∧ ∀ m n, FlushTimeoutMessage m n ∉ cs)
       ∨ ((k < length (fEvents (queue w)))%nat
          ∧ ∃ cs', cs = cs' ++ [FlushTimeoutMessage max_time
                                  (length (fEvents (queue w)) - k)]
                   ∧ ∀ m n, FlushTimeoutMessage m n ∉ cs')).
Proof.
  intros HW. unfold Flush.
  by apply (Flush_loop_account W MAX_TYPES time (Size (queue w)) max_time
              (time (clock w)) (mkWorld (queue w) (S (clock w)) (out w))).
Qed.

Lemma Flush_accounts_for_buffer_witness :
  0 ≤ 10
  ∧ ∃ w' cs k,
      Flush 10 4 (λ n, Z.of_nat n) 2 None
            (mkWorld (mkQueue [head_at 100; tail_at 105; head_at 300] 1000) 0 [])
      = Some (None, w')
      ∧ out w' = [] ++ cs
      ∧ singles cs = take k [head_at 100; tail_at 105; head_at 300].
Proof.
  split; [lia|].
  destruct (Flush_accounts_for_buffer 10 4 (λ n, Z.of_nat n) 2
    (mkWorld (mkQueue [head_at 100; tail_at 105; head_at 300] 1000) 0 []))
    as (w' & cs & k & HF & Ho & Hs & _); [lia|].
  exists w', cs, k. split; [exact HF|]. split; [exact Ho|exact Hs].
Defined.

(** X6: when the first insertion of Push throws, the error is reported,
    the buffered events are dropped without being handled, and the queue
    holds the new event alone; when the second insertion throws as well,
    Push rethrows after reporting again and leaves the queue empty. *)
Theorem Push_after_failed_insert W MAX_TYPES time e w :
  0 ≤ fMaxDelta (queue w) →
  (∃ w', Push W MAX_TYPES time true false e None w = Some (Returned None w')
     ∧ fEvents (queue w') = [e]
     ∧ singles (out w') = singles (out w)
     ∧ PushInsertError (Size (queue w)) ∈ out w')
  ∧ (∃ w', Push W MAX_TYPES time true true e None w = Some (Rethrown None w')
       ∧ fEvents (queue w') = []
       ∧ singles (out w') = singles (out w)
       ∧ PushInsertError (Size (queue w)) ∈ out w'
       ∧ last (out w') = Some PushInsertRethrow).
Proof.
  intros HT. unfold Push.
  destruct (Flush_minus_one W MAX_TYPES time None
              (emit [PushInsertError (Size (queue w))] w))
    as (w2 & -> & He & HT2 & Hs & Hin).
  cbn [mbind option_bind]. cbn [emit out queue] in Hs, Hin, HT2.
  rewrite singles_app in Hs. simpl in Hs. rewrite app_nil_r in Hs.
  assert (Herr : PushInsertError (Size (queue w)) ∈ out w2).
  { apply Hin, elem_of_app. right. by apply list_elem_of_singleton. }
  split.
  - unfold Push_tail, insert_world. cbn [set_events queue fEvents].
    rewrite He. unfold multiset_insert. cbn [upper_bound take drop app].
    unfold IsFull. cbn [fMaxDelta fEvents time_span fmap list_fmap foldr].
    rewrite Z.sub_diag, (proj2 (Z.ltb_ge _ _)) by lia.
    cbn [update_diagnostics mbind option_bind].
    eexists. split; [done|]. by split_and!.
  - eexists. split; [done|]. cbn [emit queue out].
    split_and!; [done| | |by rewrite last_snoc].
    + rewrite singles_app. simpl. by rewrite app_nil_r.
    + apply elem_of_app. by left.
Qed.

Lemma Push_after_failed_insert_witness :
  0 ≤ fMaxDelta (queue (mkWorld (mkQueue [head_at 100; tail_at 105] 1000) 0 []))
  ∧ ∃ w', Push 10 4 frozen_clock true false (head_at 200) None
               (mkWorld (mkQueue [head_at 100; tail_at 105] 1000) 0 [])
          = Some (Returned None w')
      ∧ fEvents (queue w') = [head_at 200]
      ∧ singles (out w') = singles [].
Proof.
  split; [simpl; lia|].
  destruct (Push_after_failed_insert 10 4 frozen_clock (head_at 200)
    (mkWorld (mkQueue [head_at 100; tail_at 105] 1000) 0 []))
    as [(w' & HP & He & Hs & _) _]; [simpl; lia|].
  exists w'. split; [exact HP|]. split; [exact He|exact Hs].
Defined.

(** ** Diagnostics filled by Push and Flush *)

(** Every field FillDiagnostics writes. *)
Lemma FillDiagnostics_fields MAX_TYPES q d tdiff have_coinc singles_id :
  length (n_singles d) = Z.to_nat MAX_TYPES →
  ∃ d' msgs,
    FillDiagnostics MAX_TYPES q (Some d) tdiff have_coinc singles_id
    = Some (Some d', msgs)
    ∧ size d' = Z.of_nat (Size q)
    ∧ time_diff d' = tdiff
    ∧ n_coinc d' = n_coinc d + (if have_coinc then 1 else 0)
    ∧ length (n_singles d') = Z.to_nat MAX_TYPES
    ∧ ∀ j : nat,
        n_singles d' !! j
        = if bool_decide (singles_id = Z.of_nat j)
          then (λ x, x + 1) <$> n_singles d !! j
          else n_singles d !! j.
Proof.
  intros Hlen. unfold FillDiagnostics.
  assert (Hc : (if have_coinc then n_coinc d + 1 else n_coinc d)
               = n_coinc d + (if have_coinc then 1 else 0))
    by (destruct have_coinc; lia).
  destruct (decide (0 ≤ singles_id < MAX_TYPES)) as [Hin|Hout].
  - rewrite (bool_decide_eq_true_2 (0 ≤ singles_id)) by lia.
    rewrite (bool_decide_eq_true_2 (singles_id < MAX_TYPES)) by lia.
    cbn [andb]. unfold array_incr. rewrite bool_decide_eq_true_2 by lia.
    destruct (lookup_lt_is_Some_2 (n_singles d) (Z.to_nat singles_id))
      as [x Hx]; [lia|].
    rewrite Hx. cbn [mbind option_bind]. eexists _, _. split; [done|].
    cbn [size time_diff n_coinc n_singles].
    split_and!; [done|done|done|by rewrite length_insert|].
    intros j. case_bool_decide as Hj.
    + subst singles_id. rewrite Nat2Z.id in *.
      rewrite list_lookup_insert_eq by (by eapply lookup_lt_Some).
      by rewrite Hx.
    + rewrite list_lookup_insert_ne; [done|]. lia.
  - assert (Hj : ∀ j : nat,
      n_singles d !! j
      = if bool_decide (singles_id = Z.of_nat j)
        then (λ x, x + 1) <$> n_singles d !! j else n_singles d !! j).
    { intros j. case_bool_decide as Hj; [|done].
      rewrite lookup_ge_None_2; [done|]. lia. }
    assert (Hgo : bool_decide (0 ≤ singles_id)
                  && bool_decide (singles_id < MAX_TYPES) = false).
    { apply andb_false_iff. rewrite !bool_decide_eq_false. lia. }
    rewrite Hgo.
    destruct (bool_decide (0 < singles_id));
      eexists _, _; (split; [done|]); by split_and!.
Qed.




Section FlushCounts.
Variable W : Z.
Variable MAX_TYPES : Z.
Variable time : nat → Z.

Lemma Flush_loop_counts fuel : ∀ max_time t_begin d w,
  0 ≤ W → 0 < max_time →
  (∀ n, time n - t_begin < max_time) →
  length (n_singles d) = Z.to_nat MAX_TYPES →
  (length (fEvents (queue w)) ≤ fuel)%nat →
  ∃ d' w',
    Flush_loop W MAX_TYPES time fuel max_time t_begin (Some d) w
    = Some (Some d', w')
    ∧ fEvents (queue w') = []
    ∧ ∀ j : nat,
        n_singles d' !! j
        = (λ x, x + Z.of_nat (length (filter (λ e, GetEventId e = Z.of_nat j)
                                             (fEvents (queue w)))))
            <$> n_singles d !! j.
Proof.
  assert (Hzero : ∀ o : option Z, o = (λ x, x + Z.of_nat 0) <$> o).
  { intros [x|]; simpl; [f_equal; lia|done]. }
  induction fuel as [|fuel IH];
    intros max_time t_begin d w HW Hmt Hclk Hlen Hfuel.
  - destruct (fEvents (queue w)) as [|e0 rest] eqn:Hq; [|simpl in Hfuel; lia].
    exists d, w. simpl. rewrite Hq. split_and!; [done..|].
    intros j. apply Hzero.
  - destruct (fEvents (queue w)) as [|e0 rest] eqn:Hq.
    + exists d, w. simpl. rewrite Hq. split_and!; [done..|].
      intros j. apply Hzero.
    + cbn [Flush_loop]. rewrite Hq.
      rewrite bool_decide_eq_true_2 by done.
      rewrite bool_decide_eq_true_2 by apply Hclk.
      rewrite (pop_world_cons _ _ e0 rest HW) by done.
      unfold update_diagnostics. cbn [queue].
      destruct (FillDiagnostics_fields MAX_TYPES
                  (mkQueue rest (fMaxDelta (queue w))) d 0
                  (has_match (partners W e0 rest)) (GetEventId e0) Hlen)
        as (d1 & msgs & -> & _ & _ & _ & Hlen1 & Hd1).
      cbn [mbind option_bind].
      destruct (IH max_time t_begin d1
        (emit (msgs ++ [HandleDiagnostics d1])
           (mkWorld (mkQueue rest (fMaxDelta (queue w))) (S (clock w))
              (out w ++ (HandleCoinc e0 <$> partners W e0 rest)
                     ++ [HandleSingle e0]))) HW Hmt Hclk Hlen1)
        as (d' & w' & HF & He & Hd'); [simpl in *; lia|].
      exists d', w'. split_and!; [exact HF|done|].
      intros j. rewrite Hd', Hd1. cbn [emit queue fEvents].
      rewrite filter_cons.
      destruct (decide (GetEventId e0 = Z.of_nat j)) as [Hj|Hj].
      * rewrite bool_decide_eq_true_2 by done.
        destruct (n_singles d !! j); simpl; [f_equal; lia|done].
      * by rewrite bool_decide_eq_false_2 by done.
Qed.
End FlushCounts.

(** X8: a Flush before its deadline with a diagnostics object counts the
    flushed events by id: on return n_singles[j] has grown by the number
    of buffered events whose event id is j, for every j inside the array,
    and the buffer is empty. *)
Theorem Flush_counts_singles W MAX_TYPES time max_time d w :
  0 ≤ W → 0 < max_time →
  (∀ n, time n - time (clock w) < max_time) →
  length (n_singles d) = Z.to_nat MAX_TYPES →
  ∃ d' w',
    Flush W MAX_TYPES time max_time (Some d) w = Some (Some d', w')
    ∧ fEvents (queue w') = []
    ∧ ∀ j : nat,
        n_singles d' !! j
        = (λ x, x + Z.of_nat (length (filter (λ e, GetEventId e = Z.of_nat j)
                                             (fEvents (queue w)))))
            <$> n_singles d !! j.
Proof.
  intros HW Hmt Hclk Hlen. unfold Flush.
  by apply (Flush_loop_counts W MAX_TYPES time (Size (queue w)) max_time
              (time (clock w)) d (mkWorld (queue w) (S (clock w)) (out w))).
Qed.

Lemma Flush_counts_singles_witness :
  0 ≤ 10 ∧ 0 < 5
  ∧ (∀ n, frozen_clock n - frozen_clock 0 < 5)
  ∧ length (n_singles (Diagnostics_reset 4)) = Z.to_nat 4
  ∧ ∃ d' w',
      Flush 10 4 frozen_clock 5 (Some (Diagnostics_reset 4))
            (mkWorld (mkQueue [head_at 100; tail_at 105; head_at 300] 1000) 0 [])
      = Some (Some d', w')
      ∧ n_singles d' !! 1%nat = Some 2
      ∧ n_singles d' !! 3%nat = Some 1.
Proof.
  assert (Hclk : ∀ n, frozen_clock n - frozen_clock 0 < 5).
  { intros n. unfold frozen_clock. lia. }
  split; [lia|]. split; [lia|]. split; [exact Hclk|]. split; [reflexivity|].
  destruct (Flush_counts_singles 10 4 frozen_clock 5 (Diagnostics_reset 4)
    (mkWorld (mkQueue [head_at 100; tail_at 105; head_at 300] 1000) 0 []))
    as (d' & w' & HF & _ & Hn); [lia|lia|exact Hclk|reflexivity|].
  exists d', w'. split; [exact HF|]. split; [exact (Hn 1%nat)|exact (Hn 3%nat)].
Defined.


(** X9: when the events are pushed in non-decreasing trigger-time order,
    every sequence of Push, Pop and Flush calls on a new queue leaves the
    buffer sorted by trigger time. *)
Theorem in_order_pushes_stay_sorted W MAX_TYPES time T ops :
  0 ≤ W →
  StronglySorted Z.le (TriggerTime <$> pushed ops) →
  ∃ w, run W MAX_TYPES time ops (new_world T) = Some w
    ∧ sorted_by_time (fEvents (queue w)).
Proof.
  intros HW Hord.
  apply run_in_order; [done|constructor|constructor|done].
Qed.

Lemma in_order_pushes_stay_sorted_witness :
  0 ≤ 10
  ∧ StronglySorted Z.le
      (TriggerTime <$> pushed [OpPush (head_at 100); OpPush (tail_at 105)])
  ∧ ∃ w, run 10 4 frozen_clock [OpPush (head_at 100); OpPush (tail_at 105)]
             (new_world 1000) = Some w
      ∧ sorted_by_time (fEvents (queue w)).
Proof.
  assert (Hord : StronglySorted Z.le
    (TriggerTime <$> pushed [OpPush (head_at 100); OpPush (tail_at 105)])).
  { repeat constructor. simpl. lia. }
  split; [lia|]. split; [exact Hord|].
  apply (in_order_pushes_stay_sorted 10 4 frozen_clock 1000
           [OpPush (head_at 100); OpPush (tail_at 105)]); [lia|exact Hord].
Defined.

(** * Histograms of the event handler *)

Section Histograms.
Context {Head Tail : Type} `{Detector Head} `{Detector Tail}.

(** What Process appends to the fill log for a head or tail event: the
    histograms listed under the id of the event. *)
Lemma Process_fills (event : Event) (a : Analyzer Head Tail) :
  GetEventId event = DRAGON_HEAD_EVENT
  ∨ GetEventId event = DRAGON_TAIL_EVENT →
  filled (Process event a)
  = filled a ++ default [] (fHistos a !! GetEventId event).
Proof.
  intros Hid. unfold Process.
  destruct (decide (GetEventId event = DRAGON_HEAD_EVENT)) as [Hh|Hh];
    [done|].
  destruct (decide (GetEventId event = DRAGON_TAIL_EVENT)) as [Ht|Ht];
    [done|].
  by destruct Hid.
Qed.

(** The calls of fill() of Process are on the histograms of [fills_of]. *)
Lemma Process_fills_of (event : Event) (a : Analyzer Head Tail) :
  filled (Process event a) = filled a ++ fills_of event a.
Proof.
  unfold fills_of. case_decide as Hid; [by apply Process_fills|].
  unfold Process. rewrite !decide_False by tauto.
  rewrite app_nil_r. by repeat case_decide.
Qed.

(** Process registers nothing and drops nothing: under every id the list
    of histograms stays what it was (operator[] may add an empty list). *)
Lemma Process_keeps_histos (event : Event) (a : Analyzer Head Tail) k :
  default [] (fHistos (Process event a) !! k) = default [] (fHistos a !! k).
Proof.
  assert (Hfill : ∀ EID (b : Analyzer Head Tail),
    default [] (fHistos (fill_histos EID b) !! k)
    = default [] (fHistos b !! k)).
  { intros EID b. unfold fill_histos. cbn [fHistos].
    destruct (decide (EID = k)) as [->|Hne].
    - by rewrite lookup_insert_eq.
    - by rewrite lookup_insert_ne. }
  unfold Process. repeat case_decide; try done; by rewrite Hfill.
Qed.

Lemma process_all_keeps_histos events : ∀ (a : Analyzer Head Tail) k,
  default [] (fHistos (process_all events a) !! k)
  = default [] (fHistos a !! k).
Proof.
  unfold process_all.
  induction events as [|ev events IH]; intros a k; simpl; [done|].
  by rewrite IH, Process_keeps_histos.
Qed.
End Histograms.

(** X10: a histogram that AddHisto registered under an event id is filled
    by every later head or tail event of that id, whatever events are
    processed in between, after the histograms registered under the id
    before it, and by no event of another id; AddHisto succeeds only on a
    file that is neither null nor a zombie, and returns with the file as
    the current directory and the histogram given a directory. *)
Theorem added_histo_is_filled {Head Tail FS Dir : Type}
        `{Detector Head} `{Detector Tail} `{TDirectoryOps FS Dir}
        (hist : nat) (eventId : Z) (file : option (TFile Dir))
        (dirPath : string) (r r' : RootState FS Dir)
        (histos' : gmap Z (list nat)) (a : Analyzer Head Tail)
        (events : list Event) (event : Event) :
  AddHisto hist eventId file dirPath r (fHistos a) = added r' histos' →
  GetEventId event = DRAGON_HEAD_EVENT
  ∨ GetEventId event = DRAGON_TAIL_EVENT →
  filled (Process event (process_all events (set_histos histos' a)))
  = filled (process_all events (set_histos histos' a))
      ++ default [] (fHistos a !! GetEventId event)
      ++ (if decide (GetEventId event = eventId) then [hist] else [])
  ∧ ∃ f, file = Some f ∧ IsZombie f = false
         ∧ gDirectory r' = file_dir f
         ∧ is_Some (hist_dir r' !! hist).
Proof.
  intros Hadd Hid. unfold AddHisto in Hadd.
  destruct file as [f|]; [|done].
  destruct (IsZombie f) eqn:Hz; [done|].
  destruct (foldl enter_dir _ _) as [r1|]; [|done].
  injection Hadd as <- <-. split.
  - rewrite Process_fills by done. f_equal.
    rewrite process_all_keeps_histos. cbn [set_histos fHistos].
    destruct (decide (GetEventId event = eventId)) as [->|Hne].
    + by rewrite lookup_insert_eq.
    + rewrite lookup_insert_ne by done. by rewrite app_nil_r.
  - exists f. split_and!; [done..|]. cbn [hist_dir].
    rewrite lookup_insert_eq. by eexists.
Qed.

Lemma added_histo_is_filled_witness :
  AddHisto (H := path_dirs) 7 DRAGON_HEAD_EVENT (Some (mkTFile false []))
           "singles/bgo" (mkRoot [[]] ["old"%string] ∅) (fHistos analyzer_sample)
  = added (mkRoot [["singles"; "bgo"]; ["singles"]; []]%string []
                  {[7%nat := ["singles"; "bgo"]%string]})
          {[DRAGON_HEAD_EVENT := [0; 7]%nat]}
  ∧ (GetEventId (head_at 100) = DRAGON_HEAD_EVENT
     ∨ GetEventId (head_at 100) = DRAGON_TAIL_EVENT)
  ∧ filled (@Process unit unit blank_detector blank_detector (head_at 100)
              (@process_all unit unit blank_detector blank_detector
                 [tail_at 50; scaler_event_sample]
                 (set_histos {[DRAGON_HEAD_EVENT := [0; 7]%nat]}
                             analyzer_sample)))
    = filled (@process_all unit unit blank_detector blank_detector
                [tail_at 50; scaler_event_sample]
                (set_histos {[DRAGON_HEAD_EVENT := [0; 7]%nat]}
                            analyzer_sample))
        ++ default [] (fHistos analyzer_sample !! GetEventId (head_at 100))
        ++ (if decide (GetEventId (head_at 100) = DRAGON_HEAD_EVENT)
            then [7%nat] else []).
Proof.
  assert (Hadd :
    AddHisto (H := path_dirs) 7 DRAGON_HEAD_EVENT (Some (mkTFile false []))
             "singles/bgo" (mkRoot [[]] ["old"%string] ∅)
             (fHistos analyzer_sample)
    = added (mkRoot [["singles"; "bgo"]; ["singles"]; []]%string []
                    {[7%nat := ["singles"; "bgo"]%string]})
            {[DRAGON_HEAD_EVENT := [0; 7]%nat]}).
  { vm_compute. reflexivity. }
  split; [exact Hadd|]. split; [left; reflexivity|].
  apply (@added_histo_is_filled unit unit _ _ blank_detector blank_detector
           path_dirs 7%nat DRAGON_HEAD_EVENT (Some (mkTFile false []))
           "singles/bgo"%string (mkRoot [[]] ["old"%string] ∅) _ _
           analyzer_sample [tail_at 50; scaler_event_sample] (head_at 100)
           Hadd).
  left; reflexivity.
Defined.

(** ** The histograms after EndRun *)

Lemma for_each_undefined {A S : Type} (f : A → S → option S) (l : list A) :
  foldl (λ acc x, acc ≫= f x) None l = None.
Proof. by induction l. Qed.

Lemma for_each_cons {A S : Type} (f : A → S → option S) x l st :
  for_each f (x :: l) st = f x st ≫= for_each f l.
Proof.
  unfold for_each. simpl. destruct (f x st); [done|].
  apply for_each_undefined.
Qed.

Lemma for_each_app {A S : Type} (f : A → S → option S) l1 l2 st :
  for_each f (l1 ++ l2) st = for_each f l1 st ≫= for_each f l2.
Proof.
  revert st. induction l1 as [|x l1 IH]; intros st; [done|].
  simpl. rewrite !for_each_cons. destruct (f x st) as [st1|]; [|done].
  simpl. apply IH.
Qed.

(** EndRun walks the histograms of the map one after the other. *)
Lemma EndRun_registered {Head Tail : Type} (a : Analyzer Head Tail) st :
  EndRun a st = for_each hDestruct (registered (fHistos a)) st.
Proof.
  unfold EndRun, registered. revert st.
  induction (in_key_order (fHistos a)) as [|p ps IH]; intros st; [done|].
  rewrite for_each_cons, bind_cons, for_each_app.
  change (hListDestruct p st) with (for_each hDestruct p.2 st).
  destruct (for_each hDestruct p.2 st) as [st1|]; [|done]. simpl. apply IH.
Qed.

Lemma hDestruct_alive h st :
  h ∉ deleted st →
  hDestruct h st
  = Some (mkHistState (deleted st ++ [h])
                      (hist_calls st ++ [hist_write h; hist_delete h])).
Proof. intros Hh. unfold hDestruct. by rewrite decide_False. Qed.

Lemma hDestruct_dead h st : h ∈ deleted st → hDestruct h st = None.
Proof. intros Hh. unfold hDestruct. by rewrite decide_True. Qed.

(** On histograms that are alive and pairwise distinct, hDestruct writes
    and deletes one after the other. *)
Lemma hDestruct_each hs : ∀ st,
  NoDup hs → (∀ h, h ∈ hs → h ∉ deleted st) →
  for_each hDestruct hs st
  = Some (mkHistState (deleted st ++ hs)
            (hist_calls st ++ (hs ≫= λ h, [hist_write h; hist_delete h]))).
Proof.
  induction hs as [|h hs IH]; intros st Hnd Hlive.
  - unfold for_each. simpl. rewrite !app_nil_r. by destruct st.
  - apply NoDup_cons in Hnd as [Hh Hnd].
    rewrite for_each_cons, hDestruct_alive by (apply Hlive; left).
    simpl. rewrite IH; [|done|].
    + cbn [deleted hist_calls]. by rewrite <- !app_assoc.
    + intros h' Hh'. cbn [deleted]. rewrite elem_of_app, list_elem_of_singleton.
      intros [Hd| ->]; [|done]. by apply (Hlive h'); [right|].
Qed.

(** hDestruct is undefined as soon as one of the histograms was deleted
    before. *)
Lemma hDestruct_deleted hs : ∀ st h,
  h ∈ hs → h ∈ deleted st → for_each hDestruct hs st = None.
Proof.
  induction hs as [|x hs IH]; intros st h Hin Hdel.
  - by apply elem_of_nil in Hin.
  - rewrite for_each_cons.
    destruct (decide (x ∈ deleted st)) as [Hx|Hx];
      [by rewrite hDestruct_dead|].
    rewrite hDestruct_alive by done. simpl.
    apply elem_of_cons in Hin as [->|Hin]; [done|].
    apply (IH _ h Hin). cbn [deleted]. apply elem_of_app. by left.
Qed.

Lemma registered_elem (histos : gmap Z (list nat)) k h :
  h ∈ default [] (histos !! k) → h ∈ registered histos.
Proof.
  intros Hh. destruct (histos !! k) as [hs|] eqn:Hk;
    [|by apply elem_of_nil in Hh].
  simpl in Hh. unfold registered. apply list_elem_of_bind.
  exists (k, hs). split; [done|].
  unfold in_key_order. rewrite merge_sort_Permutation.
  by apply elem_of_map_to_list.
Qed.

(** X11: on a handler whose registered histograms are alive and pairwise
    distinct, EndRun writes and then deletes every registered histogram,
    in the order of the map, and leaves it listed; BeginRun registers
    nothing anew.  So a head or tail event processed afterwards, under
    whose id a histogram is listed, calls fill() on a deleted histogram,
    and a second EndRun calls write() on one: both are undefined. *)
Theorem EndRun_leaves_deleted_histograms_listed {Head Tail : Type}
        `{Detector Head} `{Detector Tail}
        (a : Analyzer Head Tail) (st : HistState) :
  NoDup (registered (fHistos a)) →
  (∀ h, h ∈ registered (fHistos a) → h ∉ deleted st) →
  ∃ st',
    EndRun a st = Some st'
    ∧ deleted st' = deleted st ++ registered (fHistos a)
    ∧ hist_calls st'
      = hist_calls st
          ++ (registered (fHistos a) ≫= λ h, [hist_write h; hist_delete h])
    ∧ (∀ event h,
         GetEventId event = DRAGON_HEAD_EVENT
         ∨ GetEventId event = DRAGON_TAIL_EVENT →
         h ∈ default [] (fHistos a !! GetEventId event) →
         Process_live st' event (BeginRun a) = None)
    ∧ (registered (fHistos a) ≠ [] → EndRun (BeginRun a) st' = None).
Proof.
  intros Hnd Hlive. eexists. rewrite EndRun_registered.
  split; [by apply hDestruct_each|]. cbn [deleted hist_calls].
  split_and!; [done|done| |].
  - intros event h Hid Hh. unfold Process_live, BeginRun, fills_of.
    rewrite (decide_True _ _ Hid). apply decide_False.
    intros Hall. apply (proj1 (Forall_forall _ _) Hall) in Hh as Hnot.
    apply Hnot. cbn [deleted]. apply elem_of_app. right.
    by eapply registered_elem.
  - intros Hne. unfold BeginRun. rewrite EndRun_registered.
    destruct (registered (fHistos a)) as [|h hs] eqn:Hr; [done|].
    apply (hDestruct_deleted _ _ h); [by left|].
    cbn [deleted]. apply elem_of_app. right. by left.
Qed.

Lemma EndRun_leaves_deleted_histograms_listed_witness :
  NoDup (registered (fHistos analyzer_sample))
  ∧ (∀ h, h ∈ registered (fHistos analyzer_sample)
          → h ∉ deleted (mkHistState [] []))
  ∧ ∃ st',
      EndRun analyzer_sample (mkHistState [] []) = Some st'
      ∧ @Process_live unit unit blank_detector blank_detector st'
          (head_at 100) (BeginRun analyzer_sample) = None.
Proof.
  assert (Hnd : NoDup (registered (fHistos analyzer_sample))).
  { apply (bool_decide_unpack _). by vm_compute. }
  assert (Hlive : ∀ h, h ∈ registered (fHistos analyzer_sample)
                       → h ∉ deleted (mkHistState [] [])).
  { intros h _ Hh. by apply elem_of_nil in Hh. }
  split; [exact Hnd|]. split; [exact Hlive|].
  destruct (@EndRun_leaves_deleted_histograms_listed unit unit
              blank_detector blank_detector analyzer_sample
              (mkHistState [] []) Hnd Hlive)
    as (st' & HE & _ & _ & HP & _).
  exists st'. split; [exact HE|].
  apply (HP (head_at 100) 0%nat); [left; reflexivity|].
  apply list_elem_of_here.
Defined.

(** * Aliases of the scaler channels *)

Lemma c_str_idemp s : c_str (c_str s) = c_str s.
Proof.
  induction s as [|c s IH]; simpl; [done|].
  case_decide as Hc; [done|]. simpl. rewrite decide_False by done.
  by rewrite IH.
Qed.

Lemma c_str_app s1 s2 :
  c_str s1 = s1 → c_str (s1 +:+ s2) = s1 +:+ c_str s2.
Proof.
  induction s1 as [|c s1 IH]; simpl; [done|].
  case_decide as Hc; [done|]. intros [= Hs]. by rewrite IH.
Qed.

(** The channel and array of every alias, in call order. *)
Lemma set_aliases_fmap names b :
  set_aliases names b
  = (λ p, alias_of names b p.1 p.2)
      <$> (i ← seq 0 Scaler.MAX_CHANNELS; ch ← chNames; [(i, ch)]).
Proof. reflexivity. Qed.

Lemma alias_pairs_elem i ch :
  (i, ch) ∈ (i ← seq 0 Scaler.MAX_CHANNELS; ch ← chNames; [(i, ch)]) →
  (i < Scaler.MAX_CHANNELS)%nat ∧ ch ∈ chNames.
Proof.
  intros Hin. apply list_elem_of_bind in Hin as (i' & Hin & Hi).
  apply list_elem_of_bind in Hin as (ch' & Hin & Hch).
  apply list_elem_of_singleton in Hin as [= -> ->].
  apply elem_of_seq in Hi. split; [lia|done].
Qed.

(** The new name of an alias: the branch name and the channel name as
    they are, the array name up to its first NUL. *)
Lemma alias_new_name names b i ch :
  ch ∈ chNames →
  (alias_of names b i ch).1
  = (c_str b +:+ "_" +:+ ch +:+ "_"
       +:+ default EmptyString ((c_str <$> names) !! i))%string.
Proof.
  intros Hch. unfold alias_of. cbn [fst].
  rewrite c_str_app by apply c_str_idemp. f_equal.
  rewrite list_lookup_fmap.
  assert (Hn : c_str (default EmptyString (names !! i))
               = default EmptyString (c_str <$> names !! i))
    by by destruct (names !! i).
  rewrite <- Hn. unfold chNames in Hch.
  repeat (apply elem_of_cons in Hch as [->|Hch]);
    [done..|by apply elem_of_nil in Hch].
Qed.

(** The array name is read off an alias whatever the channel name is. *)
Lemma alias_suffix_inj ch ch' n n' :
  ch ∈ chNames → ch' ∈ chNames →
  ("_" +:+ ch +:+ "_" +:+ n = "_" +:+ ch' +:+ "_" +:+ n')%string →
  ch = ch' ∧ n = n'.
Proof.
  unfold chNames. intros Hch Hch' Heq.
  repeat (apply elem_of_cons in Hch as [->|Hch]);
    [| | |by apply elem_of_nil in Hch];
    (repeat (apply elem_of_cons in Hch' as [->|Hch']);
     [| | |by apply elem_of_nil in Hch']);
    simpl in Heq; by simplify_eq.
Qed.

(** X12: set_aliases makes 51 SetAlias calls, three for each of the 17
    channels; the branch expressions are pairwise distinct, and the alias
    names are pairwise distinct exactly when the channel names are, read
    as C strings (up to their first NUL). *)
Theorem set_aliases_distinct names branchName :
  length names = Scaler.MAX_CHANNELS →
  length (set_aliases names branchName) = 51%nat
  ∧ NoDup (snd <$> set_aliases names branchName)
  ∧ (NoDup (fst <$> set_aliases names branchName)
     ↔ NoDup (c_str <$> names)).
Proof.
  intros Hlen. split; [reflexivity|].
  assert (Hpairs : NoDup (i ← seq 0 Scaler.MAX_CHANNELS; ch ← chNames;
                          [(i, ch)])).
  { apply (bool_decide_unpack _). by vm_compute. }
  assert (Hfst : fst <$> set_aliases names branchName
    = (λ p : nat * string,
         (c_str branchName +:+ "_" +:+ p.2 +:+ "_"
            +:+ default EmptyString ((c_str <$> names) !! p.1))%string)
        <$> (i ← seq 0 Scaler.MAX_CHANNELS; ch ← chNames; [(i, ch)])).
  { rewrite set_aliases_fmap, <- list_fmap_compose.
    apply Forall_fmap_ext_1, Forall_forall. intros [i ch] Hin.
    apply alias_pairs_elem in Hin as [_ Hch]. by apply alias_new_name. }
  assert (Hsnd : snd <$> set_aliases names branchName
    = String.append (c_str branchName)
        <$> ((λ p : nat * string,
                c_str ("." +:+ p.2 +:+ "[" +:+ pretty p.1 +:+ "]")%string)
               <$> (i ← seq 0 Scaler.MAX_CHANNELS; ch ← chNames; [(i, ch)]))).
  { rewrite set_aliases_fmap, <- !list_fmap_compose.
    apply Forall_fmap_ext_1, Forall_forall. intros [i ch] Hin.
    unfold alias_of. cbn [snd compose fst].
    by rewrite c_str_app by apply c_str_idemp. }
  rewrite Hfst, Hsnd. clear Hfst Hsnd.
  assert (Hlen' : length (c_str <$> names) = Scaler.MAX_CHANNELS)
    by by rewrite length_fmap.
  generalize dependent (c_str <$> names). clear names Hlen.
  generalize (c_str branchName). clear branchName.
  intros b names Hlen.
  split; [|split].
  - apply (NoDup_fmap_2 _).
    apply (bool_decide_unpack _). by vm_compute.
  - intros Hnd. apply NoDup_alt. intros i j x Hi Hj.
    assert (Hsub :
      ((λ n, b +:+ "_" +:+ "count" +:+ "_" +:+ n)%string <$> names)
        `sublist_of`
        ((λ p : nat * string,
            (b +:+ "_" +:+ p.2 +:+ "_"
               +:+ default EmptyString (names !! p.1))%string)
           <$> (i ← seq 0 Scaler.MAX_CHANNELS; ch ← chNames; [(i, ch)]))).
    { unfold Scaler.MAX_CHANNELS in Hlen.
      do 17 (destruct names as [|? names]; [discriminate Hlen|]).
      destruct names; [|discriminate Hlen].
      cbn. repeat (apply sublist_skip; do 2 apply sublist_cons).
      constructor. }
    pose proof (sublist_NoDup _ _ Hnd Hsub) as Hnames.
    apply NoDup_fmap_1 in Hnames.
    by eapply NoDup_lookup.
  - intros Hnd.
    apply NoDup_fmap_2_strong; [|done].
    intros [i ch] [i' ch'] Hin Hin' Heq. cbn in Heq.
    apply alias_pairs_elem in Hin as [Hi Hch].
    apply alias_pairs_elem in Hin' as [Hi' Hch'].
    apply (inj (String.append b)) in Heq.
    apply alias_suffix_inj in Heq as [-> Heq]; [|done..].
    f_equal.
    destruct (lookup_lt_is_Some_2 names i) as [x Hx]; [lia|].
    destruct (lookup_lt_is_Some_2 names i') as [x' Hx']; [lia|].
    rewrite Hx, Hx' in Heq. simpl in Heq. subst x'.
    by eapply NoDup_lookup.
Qed.

Lemma set_aliases_distinct_witness :
  length ((λ i : nat, pretty i) <$> seq 0 17) = Scaler.MAX_CHANNELS
  ∧ length (set_aliases ((λ i : nat, pretty i) <$> seq 0 17) "scaler")
    = 51%nat.
Proof.
  split; [reflexivity|].
  apply (set_aliases_distinct ((λ i : nat, pretty i) <$> seq 0 17) "scaler").
  reflexivity.
Defined.

(** * Paths of the ODB *)

Lemma substring_full s : String.substring 0 (String.length s) s = s.
Proof. induction s as [|c s IH]; simpl; [done|]. by rewrite IH. Qed.

Lemma length_append_slash pre post :
  String.length (pre +:+ String "/"%char post)
  = S (String.length pre + String.length post).
Proof. induction pre as [|c pre IH]; simpl; [done|]. rewrite IH. lia. Qed.

(** What find and substr give on a path: the first slash cuts it into a
    part without a slash and the rest. *)
Lemma index_slash s :
  match String.index 0 "/" s with
  | Some n =>
    ∃ pre post,
      s = pre +:+ String "/"%char post
      ∧ has_slash pre = false
      ∧ String.substring 0 n s = pre
      ∧ String.substring (n + 1) (String.length s - (n + 1)) s = post
  | None => has_slash s = false
  end.
Proof.
  induction s as [|c s IH]; [done|].
  cbn [String.index String.prefix has_slash].
  destruct (ascii_dec "/" c) as [<-|Hc].
  - replace (String.prefix EmptyString s) with true by (by destruct s).
    exists EmptyString, s. split_and!; [done..|].
    cbn. rewrite Nat.sub_0_r. apply substring_full.
  - rewrite decide_False by done.
    destruct (String.index 0 "/" s) as [n|]; [|done].
    destruct IH as (pre & post & -> & Hpre & Hsub & Hrest).
    exists (String c pre), post. split_and!.
    + done.
    + cbn. by rewrite decide_False by done.
    + cbn [String.substring]. by rewrite Hsub.
    + cbn [String.substring String.length Nat.add]. exact Hrest.
Qed.

Lemma tokenize_loop_spec fuel : ∀ s nodes,
  (String.length s ≤ fuel)%nat →
  ∃ ts, tokenize_loop fuel s nodes = nodes ++ ts
    ∧ ts ≠ []
    ∧ join_slash ts = s
    ∧ Forall (λ t, has_slash t = false) ts.
Proof.
  induction fuel as [|fuel IH]; intros s nodes Hlen.
  - destruct s; [|simpl in Hlen; lia].
    exists [EmptyString]. split_and!; [done..|]. by repeat constructor.
  - cbn [tokenize_loop]. pose proof (index_slash s) as Hidx.
    destruct (String.index 0 "/" s) as [n|].
    + destruct Hidx as (pre & post & Hs & Hpre & -> & ->).
      destruct (IH post (nodes ++ [pre])) as (ts & -> & Hne & Hj & Hall).
      { rewrite Hs, length_append_slash in Hlen. lia. }
      exists (pre :: ts). rewrite <- app_assoc. split_and!; [done..| |].
      * cbn [join_slash]. destruct ts; [done|]. by rewrite Hj.
      * by constructor.
    + exists [s]. split_and!; [done..|]. by repeat constructor.
Qed.

(** Joining is one-to-one on names without slashes. *)
Lemma join_slash_cut pre pre' rest rest' :
  has_slash pre = false → has_slash pre' = false →
  pre +:+ String "/"%char rest = pre' +:+ String "/"%char rest' →
  pre = pre' ∧ rest = rest'.
Proof.
  revert pre'. induction pre as [|c pre IH]; intros [|c' pre'] Hp Hp' Heq;
    simpl in *.
  - by simplify_eq.
  - injection Heq as <- _. by rewrite decide_True in Hp'.
  - injection Heq as -> _. by rewrite decide_True in Hp.
  - injection Heq as <- Heq.
    destruct (decide (c = "/"%char)); [done|].
    destruct (IH pre' Hp Hp' Heq) as [-> ->]. done.
Qed.

Lemma join_slash_no_slash t ts :
  has_slash (t +:+ String "/"%char ts) = true.
Proof.
  induction t as [|c t IH]; simpl; [done|]. by destruct (decide _).
Qed.

Lemma join_slash_inj ts : ∀ ts',
  ts ≠ [] → ts' ≠ [] →
  Forall (λ t, has_slash t = false) ts →
  Forall (λ t, has_slash t = false) ts' →
  join_slash ts = join_slash ts' → ts = ts'.
Proof.
  induction ts as [|t ts IH]; intros [|t' ts'] Hne Hne' Hall Hall' Heq;
    [done..|].
  apply Forall_cons in Hall as [Ht Hall].
  apply Forall_cons in Hall' as [Ht' Hall'].
  cbn [join_slash] in Heq.
  destruct ts as [|u ts]; destruct ts' as [|u' ts'].
  - by subst.
  - subst t. by rewrite join_slash_no_slash in Ht.
  - subst t'. by rewrite join_slash_no_slash in Ht'.
  - apply join_slash_cut in Heq as [-> Heq]; [|done..].
    f_equal. by apply IH.
Qed.

Lemma path_tokenize_join path :
  path_tokenize path ≠ []
  ∧ Forall (λ t, has_slash t = false) (path_tokenize path)
  ∧ join_slash (path_tokenize path) = path.
Proof.
  unfold path_tokenize.
  destruct (tokenize_loop_spec (String.length path) path [])
    as (ts & -> & Hne & Hj & Hall); [done|]. done.
Qed.

Lemma path_tokenize_of_join ts :
  ts ≠ [] → Forall (λ t, has_slash t = false) ts →
  path_tokenize (join_slash ts) = ts.
Proof.
  intros Hne Hall.
  destruct (path_tokenize_join (join_slash ts)) as (Hne' & Hall' & Hj).
  by apply join_slash_inj.
Qed.

(** X13: path_tokenize cuts a path at every slash: it always yields at
    least one node, no node has a slash, and the nodes joined by slashes
    are the path again; conversely the nodes of joined slash-free names
    are these names. *)
Theorem path_tokenize_round_trip :
  (∀ path,
     path_tokenize path ≠ []
     ∧ Forall (λ t, has_slash t = false) (path_tokenize path)
     ∧ join_slash (path_tokenize path) = path)
  ∧ (∀ ts, ts ≠ [] → Forall (λ t, has_slash t = false) ts →
           path_tokenize (join_slash ts) = ts).
Proof.
  split; [apply path_tokenize_join|apply path_tokenize_of_join].
Qed.

(** X14: get_xml_path of names joined by slashes, with or without a
    slash in front, gives one dir node for each name but the last and a
    node of the asked type for the last; the names must have no slash and
    the first must not be empty. *)
Theorem get_xml_path_of_names t ts node_type :
  t ≠ EmptyString →
  Forall (λ t, has_slash t = false) (t :: ts) →
  get_xml_path (join_slash (t :: ts)) node_type
  = xml_path_loop (t :: ts) node_type
  ∧ get_xml_path (String "/"%char (join_slash (t :: ts))) node_type
    = xml_path_loop (t :: ts) node_type.
Proof.
  intros Ht Hall.
  pose proof path_tokenize_of_join as Hrt.
  assert (Hfirst : ∃ c s, join_slash (t :: ts) = String c s ∧ c ≠ "/"%char).
  { apply Forall_cons in Hall as [Hs _].
    destruct t as [|c t]; [done|]. exists c.
    cbn [has_slash] in Hs. destruct (decide (c = "/"%char)); [done|].
    cbn [join_slash]. destruct ts; simpl; by eexists. }
  destruct Hfirst as (c & s & Hj & Hc). split.
  - unfold get_xml_path. rewrite Hj, decide_False by done.
    rewrite <- Hj. by rewrite Hrt.
  - unfold get_xml_path. rewrite decide_True by done. by rewrite Hrt.
Qed.

Lemma get_xml_path_of_names_witness :
  ("Equipment" ≠ EmptyString)%string
  ∧ Forall (λ t, has_slash t = false) ["Equipment"; "Head"; "Peds"]%string
  ∧ get_xml_path "/Equipment/Head/Peds" "keyarray"
    = "/dir[@name=Equipment]/dir[@name=Head]/keyarray[@name=Peds]"%string.
Proof.
  assert (Hall : Forall (λ t, has_slash t = false)
                        ["Equipment"; "Head"; "Peds"]%string).
  { by repeat constructor. }
  split; [discriminate|]. split; [exact Hall|].
  apply (get_xml_path_of_names "Equipment" ["Head"; "Peds"]%string "keyarray");
    [discriminate|exact Hall].
Defined.

(** * The search for the ODB in a buffer *)

Lemma find_odb_loop_spec fBuffer rounds : ∀ startPos,
  (startPos + rounds = length fBuffer + length odb_tag)%nat →
  (startPos ≤ length fBuffer)%nat →
  (∀ q, (q < startPos)%nat →
        take (length odb_tag) (drop q fBuffer) ≠ odb_tag) →
  match find_odb_loop rounds startPos fBuffer with
  | odb_at p =>
    take (length odb_tag) (drop p fBuffer) = odb_tag
    ∧ ∀ q, (q < p)%nat → take (length odb_tag) (drop q fBuffer) ≠ odb_tag
  | odb_not_found => False
  | odb_outside_buffer =>
    ∀ p, take (length odb_tag) (drop p fBuffer) ≠ odb_tag
  end.
Proof.
  induction rounds as [|rounds IH]; intros startPos Hsum Hle Hprev.
  - simpl in Hsum. lia.
  - cbn [find_odb_loop]. unfold memcmp_odb.
    destruct (decide (startPos + length odb_tag ≤ length fBuffer)%nat)
      as [Hin|Hout].
    + case_bool_decide as Htag; [done|].
      apply IH; [lia|simpl in Hin; lia|].
      intros q Hq. destruct (decide (q = startPos)) as [->|Hne]; [done|].
      apply Hprev. lia.
    + intros p Hp. destruct (decide (p < startPos)%nat) as [Hlt|Hge].
      * by apply (Hprev p).
      * apply (f_equal length) in Hp.
        rewrite length_take, length_drop in Hp. lia.
Qed.

(** X15: the search of ParseBuffer for the start of the ODB either stops
    at the first place where the buffer reads <odb, or compares
    characters beyond the end of the buffer, which it does whenever the
    buffer has no such place; it never gets to report that the ODB was
    not found. *)
Theorem ParseBuffer_search fBuffer :
  match ParseBuffer_find_odb fBuffer with
  | odb_at p =>
    take (length odb_tag) (drop p fBuffer) = odb_tag
    ∧ ∀ q, (q < p)%nat → take (length odb_tag) (drop q fBuffer) ≠ odb_tag
  | odb_not_found => False
  | odb_outside_buffer =>
    ∀ p, take (length odb_tag) (drop p fBuffer) ≠ odb_tag
  end.
Proof.
  unfold ParseBuffer_find_odb. apply find_odb_loop_spec; [done|lia|].
  intros q Hq. lia.
Qed.
